(** * gosh.Cmd: a shallow embedding of [gosh/cmd.go]

    The handle [Cmd] of package gosh starts a child process, tees its output
    to a set of sinks, decodes the control messages the child prints on its
    stdout and lets the caller wait for them.  The embedding keeps the struct
    as a record, Go maps as [gmap], and every interaction with the operating
    system (pipes, files, exec, signals) as an explicit argument that gives
    the result the call had.  Concurrency is made explicit where the code
    blocks: a wait on the condition variable consumes the next batch of
    updates made by the decoder and the exit waiter. *)

From Stdlib Require Import ZArith Strings.Byte.
From stdpp Require Import gmap strings list fin_maps.

Local Open Scope Z_scope.
Local Open Scope string_scope.

#[local] Set Warnings "-clear-no-such-hyp".

#[local] Instance byte_eq_decision : EqDecision byte := Byte.byte_eq_dec.

(** ** Errors *)

(** A Go [error] value.  [errorsNew] is [errors.New], also for the errors the
    os, os/exec and encoding/json packages return, which are kept by their
    [Error()] text; [unknownMessageType ty] is
    [fmt.Errorf("unknown message type: %q", ty)]. *)
Inductive error : Type :=
| errorsNew (text : string)
| unknownMessageType (ty : string)
| ExitError (status : Z).

#[global] Instance error_eq_decision : EqDecision error.
Proof. solve_decision. Defined.

Definition errAlreadyCalledStart : error := errorsNew "gosh: already called Cmd.Start".
Definition errAlreadyCalledWait : error := errorsNew "gosh: already called Cmd.Wait".
Definition errCloseStdout : error :=
  errorsNew "gosh: use NopWriteCloser(os.Stdout) to prevent stdout from being closed".
Definition errCloseStderr : error :=
  errorsNew "gosh: use NopWriteCloser(os.Stderr) to prevent stderr from being closed".
Definition errDidNotCallStart : error := errorsNew "gosh: did not call Cmd.Start".
Definition errProcessExited : error := errorsNew "gosh: process exited".

(** The error [start] returns when both [Stdin] is set and [StdinPipe] was
    called (an [errors.New] written in place in the source). *)
Definition errStdinConflict : error :=
  errorsNew "gosh: cannot both set Stdin and call StdinPipe".

(** Modelled from the spec: [errAlreadyCalledCleanup] is declared with the
    Shell, outside cmd.go; the spec calls it the error of an owner that has
    begun mass cleanup. *)
Definition errAlreadyCalledCleanup : error := errorsNew "gosh: already called Shell.Cleanup".

Definition errFinished : string := "os: process already finished".

(** A function that can panic (here: a slice expression out of range). *)
Inductive outcome (A : Type) : Type :=
| Returns (a : A)
| Panics.
Arguments Returns {A} a.
Arguments Panics {A}.

(** ** Objects, writers and the handle *)

(** The identity of a value behind an [io.Writer], [io.Closer] or
    [io.WriteCloser] interface: the handle's decoder, the parent's own
    streams, a file opened by name, or any other object (a buffered pipe, a
    buffer, a sink of the caller) by its address. *)
Inductive Object : Type :=
| RecvWriter
| OsStdout
| OsStderr
| File (name : string)
| Ref (addr : N).

#[global] Instance Object_eq_decision : EqDecision Object.
Proof. solve_decision. Defined.

Definition Object_encode (o : Object) : nat + string + N :=
  match o with
  | RecvWriter => inl (inl 0%nat)
  | OsStdout => inl (inl 1%nat)
  | OsStderr => inl (inl 2%nat)
  | File name => inl (inr name)
  | Ref addr => inr addr
  end.

Definition Object_decode (x : nat + string + N) : Object :=
  match x with
  | inl (inl 0%nat) => RecvWriter
  | inl (inl 1%nat) => OsStdout
  | inl (inl _) => OsStderr
  | inl (inr name) => File name
  | inr addr => Ref addr
  end.

Lemma Object_decode_encode (o : Object) : Object_decode (Object_encode o) = o.
Proof. by destruct o. Qed.

#[global] Instance Object_countable : Countable Object :=
  inj_countable' Object_encode Object_decode Object_decode_encode.

Inductive Mutex : Type := sharedMu.

(** What [makeStdoutStderr] hands to exec.Cmd: [io.MultiWriter(ws...)],
    possibly inside a [lockedWriter]. *)
Inductive ioWriter : Type :=
| MultiWriter (ws : list Object)
| lockedWriter (mu : Mutex) (w : ioWriter).

Inductive ioReader : Type :=
| stringsNewReader (s : string)
| pipeReader (w : Object).

(** The fields of [exec.Cmd] the handle sets, and the process once started. *)
Record execCmd : Type := mkExecCmd {
  exec_Path : string;
  exec_Env : list string;
  exec_Args : list string;
  exec_Stdin : option ioReader;
  exec_Stdout : option ioWriter;
  exec_Stderr : option ioWriter;
  exec_Process : option Z
}.

Definition execCmd_zero : execCmd := mkExecCmd "" [] [] None None None None.

Record Cmd : Type := mkCmd {
  Err : option error;
  Path : string;
  Vars : gmap string string;
  Args : list string;
  IgnoreParentExit : bool;
  ExitAfter : Z;
  PropagateOutput : bool;
  OutputDir : string;
  ExitErrorIsOk : bool;
  Stdin : string;
  c : execCmd;
  stdinWriteCloser : option Object;
  calledStart : bool;
  calledWait : bool;
  waitChan : option (option error);
  started : bool;
  exited : bool;
  stdoutWriters : list Object;
  stderrWriters : list Object;
  closers : list Object;
  recvReady : bool;
  recvVars : gmap string string
}.

(** The owning Shell, as far as cmd.go reads and writes it: the flag
    [calledCleanup] and the length of the list [cmds] of registered handles. *)
Record Shell : Type := mkShell {
  calledCleanup : bool;
  cmds : nat
}.

(** Field assignments. *)
Definition set_Stdin (v : string) (x : Cmd) : Cmd :=
  mkCmd (Err x) (Path x) (Vars x) (Args x) (IgnoreParentExit x) (ExitAfter x)
    (PropagateOutput x) (OutputDir x) (ExitErrorIsOk x) v (c x)
    (stdinWriteCloser x) (calledStart x) (calledWait x) (waitChan x) (started x)
    (exited x) (stdoutWriters x) (stderrWriters x) (closers x) (recvReady x)
    (recvVars x).
Definition set_c (v : execCmd) (x : Cmd) : Cmd :=
  mkCmd (Err x) (Path x) (Vars x) (Args x) (IgnoreParentExit x) (ExitAfter x)
    (PropagateOutput x) (OutputDir x) (ExitErrorIsOk x) (Stdin x) v
    (stdinWriteCloser x) (calledStart x) (calledWait x) (waitChan x) (started x)
    (exited x) (stdoutWriters x) (stderrWriters x) (closers x) (recvReady x)
    (recvVars x).
Definition set_stdinWriteCloser (v : option Object) (x : Cmd) : Cmd :=
  mkCmd (Err x) (Path x) (Vars x) (Args x) (IgnoreParentExit x) (ExitAfter x)
    (PropagateOutput x) (OutputDir x) (ExitErrorIsOk x) (Stdin x) (c x)
    v (calledStart x) (calledWait x) (waitChan x) (started x)
    (exited x) (stdoutWriters x) (stderrWriters x) (closers x) (recvReady x)
    (recvVars x).
Definition set_calledStart (v : bool) (x : Cmd) : Cmd :=
  mkCmd (Err x) (Path x) (Vars x) (Args x) (IgnoreParentExit x) (ExitAfter x)
    (PropagateOutput x) (OutputDir x) (ExitErrorIsOk x) (Stdin x) (c x)
    (stdinWriteCloser x) v (calledWait x) (waitChan x) (started x)
    (exited x) (stdoutWriters x) (stderrWriters x) (closers x) (recvReady x)
    (recvVars x).
Definition set_calledWait (v : bool) (x : Cmd) : Cmd :=
  mkCmd (Err x) (Path x) (Vars x) (Args x) (IgnoreParentExit x) (ExitAfter x)
    (PropagateOutput x) (OutputDir x) (ExitErrorIsOk x) (Stdin x) (c x)
    (stdinWriteCloser x) (calledStart x) v (waitChan x) (started x)
    (exited x) (stdoutWriters x) (stderrWriters x) (closers x) (recvReady x)
    (recvVars x).
Definition set_waitChan (v : option (option error)) (x : Cmd) : Cmd :=
  mkCmd (Err x) (Path x) (Vars x) (Args x) (IgnoreParentExit x) (ExitAfter x)
    (PropagateOutput x) (OutputDir x) (ExitErrorIsOk x) (Stdin x) (c x)
    (stdinWriteCloser x) (calledStart x) (calledWait x) v (started x)
    (exited x) (stdoutWriters x) (stderrWriters x) (closers x) (recvReady x)
    (recvVars x).
Definition set_started (v : bool) (x : Cmd) : Cmd :=
  mkCmd (Err x) (Path x) (Vars x) (Args x) (IgnoreParentExit x) (ExitAfter x)
    (PropagateOutput x) (OutputDir x) (ExitErrorIsOk x) (Stdin x) (c x)
    (stdinWriteCloser x) (calledStart x) (calledWait x) (waitChan x) v
    (exited x) (stdoutWriters x) (stderrWriters x) (closers x) (recvReady x)
    (recvVars x).
Definition set_exited (v : bool) (x : Cmd) : Cmd :=
  mkCmd (Err x) (Path x) (Vars x) (Args x) (IgnoreParentExit x) (ExitAfter x)
    (PropagateOutput x) (OutputDir x) (ExitErrorIsOk x) (Stdin x) (c x)
    (stdinWriteCloser x) (calledStart x) (calledWait x) (waitChan x) (started x)
    v (stdoutWriters x) (stderrWriters x) (closers x) (recvReady x)
    (recvVars x).
Definition set_stdoutWriters (v : list Object) (x : Cmd) : Cmd :=
  mkCmd (Err x) (Path x) (Vars x) (Args x) (IgnoreParentExit x) (ExitAfter x)
    (PropagateOutput x) (OutputDir x) (ExitErrorIsOk x) (Stdin x) (c x)
    (stdinWriteCloser x) (calledStart x) (calledWait x) (waitChan x) (started x)
    (exited x) v (stderrWriters x) (closers x) (recvReady x)
    (recvVars x).
Definition set_stderrWriters (v : list Object) (x : Cmd) : Cmd :=
  mkCmd (Err x) (Path x) (Vars x) (Args x) (IgnoreParentExit x) (ExitAfter x)
    (PropagateOutput x) (OutputDir x) (ExitErrorIsOk x) (Stdin x) (c x)
    (stdinWriteCloser x) (calledStart x) (calledWait x) (waitChan x) (started x)
    (exited x) (stdoutWriters x) v (closers x) (recvReady x)
    (recvVars x).
Definition set_closers (v : list Object) (x : Cmd) : Cmd :=
  mkCmd (Err x) (Path x) (Vars x) (Args x) (IgnoreParentExit x) (ExitAfter x)
    (PropagateOutput x) (OutputDir x) (ExitErrorIsOk x) (Stdin x) (c x)
    (stdinWriteCloser x) (calledStart x) (calledWait x) (waitChan x) (started x)
    (exited x) (stdoutWriters x) (stderrWriters x) v (recvReady x)
    (recvVars x).
Definition set_recvReady (v : bool) (x : Cmd) : Cmd :=
  mkCmd (Err x) (Path x) (Vars x) (Args x) (IgnoreParentExit x) (ExitAfter x)
    (PropagateOutput x) (OutputDir x) (ExitErrorIsOk x) (Stdin x) (c x)
    (stdinWriteCloser x) (calledStart x) (calledWait x) (waitChan x) (started x)
    (exited x) (stdoutWriters x) (stderrWriters x) (closers x) v
    (recvVars x).
Definition set_recvVars (v : gmap string string) (x : Cmd) : Cmd :=
  mkCmd (Err x) (Path x) (Vars x) (Args x) (IgnoreParentExit x) (ExitAfter x)
    (PropagateOutput x) (OutputDir x) (ExitErrorIsOk x) (Stdin x) (c x)
    (stdinWriteCloser x) (calledStart x) (calledWait x) (waitChan x) (started x)
    (exited x) (stdoutWriters x) (stderrWriters x) (closers x) (recvReady x)
    v.

Definition set_Err (v : option error) (x : Cmd) : Cmd :=
  mkCmd v (Path x) (Vars x) (Args x) (IgnoreParentExit x) (ExitAfter x)
    (PropagateOutput x) (OutputDir x) (ExitErrorIsOk x) (Stdin x) (c x)
    (stdinWriteCloser x) (calledStart x) (calledWait x) (waitChan x) (started x)
    (exited x) (stdoutWriters x) (stderrWriters x) (closers x) (recvReady x)
    (recvVars x).

(** ** The resource registry *)

(** [closeClosers]: the loop over [c.closers] with the map [cm] of the
    closers already closed.  The result lists the [Close] calls the loop
    makes, in order. *)
Fixpoint closeClosers_loop (cm : gmap Object bool) (cs : list Object) : list Object :=
  match cs with
  | [] => []
  | x :: cs' =>
      if negb (default false (cm !! x))
      then x :: closeClosers_loop (<[x := true]> cm) cs'
      else closeClosers_loop cm cs'
  end.

Definition closeClosers (x : Cmd) : list Object := closeClosers_loop ∅ (closers x).

Definition isRunning (x : Cmd) : bool :=
  if negb (started x) then false else negb (exited x).

(** ** What cmd.go takes from elsewhere *)

(** Modelled from the spec: the message type [msg] is declared with the child
    side of the protocol, outside cmd.go.  The wire format is a JSON object
    with a [type] and, for a variables message, a mapping [vars] from string
    keys to string values. *)
Record msg : Type := mkMsg {
  msg_Type : string;
  msg_Vars : gmap string string
}.

(** Modelled from the spec: the two recognised type tags, as the wire format
    spells them. *)
Definition typeReady : string := "ready".
Definition typeVars : string := "vars".

(** Modelled from the spec: [mergeMaps] is declared outside cmd.go.  The
    spec: the carried mapping is merged into the shared one, existing keys
    overwritten, new keys added, no deletions. *)
Definition mergeMaps (vars carried : gmap string string) : gmap string string :=
  carried ∪ vars.

(** Modelled from the spec: [copyMap] is declared outside cmd.go; a clone has
    a copy of the environment mapping. *)
Definition copyMap (vars : gmap string string) : gmap string string := vars.

(** The constants and library functions cmd.go uses and does not declare:
    the marker of a control line and the two environment keys (package
    constants declared in other files), [json.Unmarshal] into a [msg],
    [mapToSlice], [time.Duration.String], [filepath.Join] and
    [filepath.Base]. *)
Class External : Type := {
  msgPrefix : list byte;
  envWatchParent : string;
  envExitAfter : string;
  json_Unmarshal : list byte → error + msg;
  mapToSlice : gmap string string → list string;
  Duration_String : Z → string;
  filepath_Join : string → string → string;
  filepath_Base : string → string
}.

(** What the operating system answers during one call of [start]: the
    formatted time, the result of each [os.OpenFile] by file name, and the
    result of [exec.Cmd.Start] (an error or the process id). *)
Record startOS : Type := mkStartOS {
  time_Now : string;
  os_OpenFile : string → error + Object;
  exec_Start : error + Z
}.

(** ** Creating and configuring a handle *)

Definition newCmdInternal (sh : Shell) (vars : gmap string string) (path : string)
    (args : list string) : Shell * (option Cmd * option error) :=
  let x := mkCmd None path vars (path :: args) false 0 false "" false ""
             execCmd_zero None false false None false false [] [] [] false ∅ in
  if calledCleanup sh then (sh, (None, Some errAlreadyCalledCleanup))
  else (mkShell (calledCleanup sh) (S (cmds sh)), (Some x, None)).

(** [clone]: [args[1:]] panics on an empty argument list. *)
Definition clone (sh : Shell) (x : Cmd) : outcome (Shell * (option Cmd * option error)) :=
  let args := Args x in
  match args with
  | [] => Panics
  | _ :: args1 =>
      match newCmdInternal sh (copyMap (Vars x)) (Path x) args1 with
      | (sh', (Some res, None)) =>
          let res :=
            mkCmd (Err res) (Path res) (Vars res) (Args res) (IgnoreParentExit x)
              (ExitAfter x) (PropagateOutput x) (OutputDir x) (ExitErrorIsOk x)
              (Stdin x) (c res) (stdinWriteCloser res) (calledStart res)
              (calledWait res) (waitChan res) (started res) (exited res)
              (stdoutWriters res) (stderrWriters res) (closers res)
              (recvReady res) (recvVars res) in
          Returns (sh', (Some res, None))
      | (sh', (_, err)) => Returns (sh', (None, err))
      end
  end.

(** [stdinPipe]; [pipe] is the result of [exec.Cmd.StdinPipe], which also
    makes the read end of the pipe the stdin of the exec.Cmd. *)
Definition stdinPipe (pipe : error + Object) (x : Cmd) : Cmd * (option Object * option error) :=
  if calledStart x then (x, (None, Some errAlreadyCalledStart))
  else match stdinWriteCloser x with
       | Some w => (x, (Some w, None))
       | None =>
           match pipe with
           | inr w =>
               let e := c x in
               let e := mkExecCmd (exec_Path e) (exec_Env e) (exec_Args e)
                          (Some (pipeReader w)) (exec_Stdout e) (exec_Stderr e)
                          (exec_Process e) in
               (set_stdinWriteCloser (Some w) (set_c e x), (Some w, None))
           | inl err => (set_stdinWriteCloser None x, (None, Some err))
           end
       end.

(** [stdoutPipe] and [stderrPipe]; [p] is the pipe [NewBufferedPipe] makes. *)
Definition stdoutPipe (p : Object) (x : Cmd) : Cmd * (option Object * option error) :=
  if calledStart x then (x, (None, Some errAlreadyCalledStart))
  else
    let x := set_stdoutWriters (stdoutWriters x ++ [p]) x in
    let x := set_closers (closers x ++ [p]) x in
    (x, (Some p, None)).

Definition stderrPipe (p : Object) (x : Cmd) : Cmd * (option Object * option error) :=
  if calledStart x then (x, (None, Some errAlreadyCalledStart))
  else
    let x := set_stderrWriters (stderrWriters x ++ [p]) x in
    let x := set_closers (closers x ++ [p]) x in
    (x, (Some p, None)).

Definition addStdoutWriter (wc : Object) (x : Cmd) : Cmd * option error :=
  if calledStart x then (x, Some errAlreadyCalledStart)
  else if decide (wc = OsStdout) then (x, Some errCloseStdout)
  else if decide (wc = OsStderr) then (x, Some errCloseStderr)
  else
    let x := set_stdoutWriters (stdoutWriters x ++ [wc]) x in
    let x := set_closers (closers x ++ [wc]) x in
    (x, None).

Definition addStderrWriter (wc : Object) (x : Cmd) : Cmd * option error :=
  if calledStart x then (x, Some errAlreadyCalledStart)
  else if decide (wc = OsStdout) then (x, Some errCloseStdout)
  else if decide (wc = OsStderr) then (x, Some errCloseStderr)
  else
    let x := set_stderrWriters (stderrWriters x ++ [wc]) x in
    let x := set_closers (closers x ++ [wc]) x in
    (x, None).

Section gosh.
Context {ext : External}.

(** ** The output multiplexer *)

(** The [switch] that ends [makeStdoutStderr]. *)
Definition makeStdoutStderr_switch (x : Cmd)
    : Cmd * (option ioWriter * option ioWriter * option error) :=
  let hasOut := bool_decide (stdoutWriters x ≠ []) in
  let hasErr := bool_decide (stderrWriters x ≠ []) in
  if hasOut && hasErr then
    (x, (Some (lockedWriter sharedMu (MultiWriter (stdoutWriters x))),
         Some (lockedWriter sharedMu (MultiWriter (stderrWriters x))), None))
  else if hasOut then (x, (Some (MultiWriter (stdoutWriters x)), None, None))
  else if hasErr then (x, (None, Some (MultiWriter (stderrWriters x)), None))
  else (x, (None, None, None)).

Definition makeStdoutStderr (os : startOS) (x : Cmd)
    : Cmd * (option ioWriter * option ioWriter * option error) :=
  let x := set_stdoutWriters (stdoutWriters x ++ [RecvWriter]) x in
  let x :=
    if PropagateOutput x then
      let x := set_stdoutWriters (stdoutWriters x ++ [OsStdout]) x in
      set_stderrWriters (stderrWriters x ++ [OsStderr]) x
    else x in
  if bool_decide (OutputDir x ≠ "") then
    let t := time_Now os in
    let name := filepath_Join (OutputDir x) (filepath_Base (Path x) ++ "." ++ t) in
    match os_OpenFile os (name ++ ".stdout") with
    | inl err => (x, (None, None, Some err))
    | inr file =>
        let x := set_stdoutWriters (stdoutWriters x ++ [file]) x in
        let x := set_closers (closers x ++ [file]) x in
        match os_OpenFile os (name ++ ".stderr") with
        | inl err => (x, (None, None, Some err))
        | inr file =>
            let x := set_stderrWriters (stderrWriters x ++ [file]) x in
            let x := set_closers (closers x ++ [file]) x in
            makeStdoutStderr_switch x
        end
    end
  else makeStdoutStderr_switch x.

(** ** Starting the process *)

(** The body of [start], without its deferred function. *)
Definition start_body (os : startOS) (sh : Shell) (x : Cmd) : Cmd * option error :=
  if calledStart x then (x, Some errAlreadyCalledStart)
  else
    let x := set_calledStart true x in
    if calledCleanup sh then (x, Some errAlreadyCalledCleanup)
    else
      let vars := copyMap (Vars x) in
      let vars :=
        if IgnoreParentExit x then delete envWatchParent vars
        else <[envWatchParent := "1"]> vars in
      let vars :=
        if bool_decide (ExitAfter x = 0) then delete envExitAfter vars
        else <[envExitAfter := Duration_String (ExitAfter x)]> vars in
      let e := c x in
      let e := mkExecCmd (Path x) (mapToSlice vars) (Args x) (exec_Stdin e)
                 (exec_Stdout e) (exec_Stderr e) (exec_Process e) in
      let x := set_c e x in
      let configured : error + Cmd :=
        if bool_decide (Stdin x ≠ "") then
          match stdinWriteCloser x with
          | Some _ => inl errStdinConflict
          | None =>
              inr (set_c (mkExecCmd (exec_Path e) (exec_Env e) (exec_Args e)
                            (Some (stringsNewReader (Stdin x))) (exec_Stdout e)
                            (exec_Stderr e) (exec_Process e)) x)
          end
        else inr x in
      match configured with
      | inl err => (x, Some err)
      | inr x =>
          let '(x, (out, err, failed)) := makeStdoutStderr os x in
          let e := c x in
          let x := set_c (mkExecCmd (exec_Path e) (exec_Env e) (exec_Args e)
                            (exec_Stdin e) out err (exec_Process e)) x in
          match failed with
          | Some err => (x, Some err)
          | None =>
              match exec_Start os with
              | inl err => (x, Some err)
              | inr pid =>
                  let e := c x in
                  let x := set_c (mkExecCmd (exec_Path e) (exec_Env e) (exec_Args e)
                                    (exec_Stdin e) (exec_Stdout e) (exec_Stderr e)
                                    (Some pid)) x in
                  (set_started true x, None)
              end
          end
      end.

(** [start]: the handle afterwards, the [Close] calls of the deferred
    function, and the error. *)
Definition start (os : startOS) (sh : Shell) (x : Cmd) : Cmd * list Object * option error :=
  let '(x', err) := start_body os sh x in
  (x', if negb (started x') then closeClosers x' else [], err).


(** The goroutine of [startExitWaiter], from the moment [exec.Cmd.Wait]
    returns [waitErr]: the handle afterwards and the [Close] calls made. *)
Definition startExitWaiter (waitErr : option error) (x : Cmd) : Cmd * list Object :=
  let x := set_exited true x in
  let closed := closeClosers x in
  (set_waitChan (Some waitErr) x, closed).

(** ** The control-message decoder *)

(** [recvWriter]: [buf] holds the unread bytes of the [bytes.Buffer]. *)
Record recvWriter : Type := mkRecvWriter {
  buf : list byte;
  readPrefix : bool;
  skipLine : bool
}.

Definition recvWriter_zero : recvWriter := mkRecvWriter [] false false.

Definition newline : byte := x0a.

(** The loop of [recvWriter.Write] over the bytes of [p]: the decoder and the
    handle afterwards, and the error that ended the loop early, if any. *)
Fixpoint Write_loop (w : recvWriter) (x : Cmd) (p : list byte)
    : recvWriter * Cmd * option error :=
  match p with
  | [] => (w, x, None)
  | b :: p' =>
      if decide (b = newline) then
        if readPrefix w && negb (skipLine w) then
          match json_Unmarshal (buf w) with
          | inl err => (w, x, Some err)
          | inr m =>
              if decide (msg_Type m = typeReady) then
                Write_loop recvWriter_zero (set_recvReady true x) p'
              else if decide (msg_Type m = typeVars) then
                Write_loop recvWriter_zero
                  (set_recvVars (mergeMaps (recvVars x) (msg_Vars m)) x) p'
              else (w, x, Some (unknownMessageType (msg_Type m)))
          end
        else Write_loop recvWriter_zero x p'
      else if negb (skipLine w) then
        let buf1 := (buf w ++ [b])%list in
        if negb (readPrefix w) && bool_decide (length buf1 = length msgPrefix) then
          let prefix := take (length msgPrefix) buf1 in
          let rest := drop (length msgPrefix) buf1 in
          if bool_decide (prefix ≠ msgPrefix)
          then Write_loop (mkRecvWriter rest true true) x p'
          else Write_loop (mkRecvWriter rest true (skipLine w)) x p'
        else Write_loop (mkRecvWriter buf1 (readPrefix w) (skipLine w)) x p'
      else Write_loop w x p'
  end.

(** [recvWriter.Write]: the decoder and the handle afterwards, and the
    result [(n, err)]. *)
Definition Write (w : recvWriter) (x : Cmd) (p : list byte)
    : recvWriter * Cmd * (nat * option error) :=
  match Write_loop w x p with
  | (w', x', Some err) => (w', x', (0%nat, Some err))
  | (w', x', None) => (w', x', (length p, None))
  end.

(** ** Waiting on the condition variable *)

(** What another goroutine does to the state protected by [cond.L] while a
    caller sleeps in [cond.Wait]: the decoder receives a ready message or a
    variables message, the exit waiter records the exit. *)
Inductive Event : Type :=
| EvReady
| EvVars (carried : gmap string string)
| EvExit.

Definition deliver (x : Cmd) (e : Event) : Cmd :=
  match e with
  | EvReady => set_recvReady true x
  | EvVars carried => set_recvVars (mergeMaps (recvVars x) carried) x
  | EvExit => set_exited true x
  end.

(** One [cond.Wait()]: the lock is released, the updates of [evs] happen,
    the caller wakes up with the lock held. *)
Definition cond_Wait (evs : list Event) (x : Cmd) : Cmd := foldl deliver x evs.

(** The loop of [awaitReady].  Each [cond.Wait()] takes the next batch of
    [wakes]; with no batch left the caller sleeps for ever ([None]). *)
Fixpoint awaitReady_loop (x : Cmd) (wakes : list (list Event)) : option Cmd :=
  if negb (exited x) && negb (recvReady x) then
    match wakes with
    | [] => None
    | evs :: wakes' => awaitReady_loop (cond_Wait evs x) wakes'
    end
  else Some x.

Definition awaitReady (x : Cmd) (wakes : list (list Event)) : option (Cmd * option error) :=
  if negb (started x) then Some (x, Some errDidNotCallStart)
  else if calledWait x then Some (x, Some errAlreadyCalledWait)
  else
    match awaitReady_loop x wakes with
    | None => None
    | Some x' =>
        if negb (recvReady x') then Some (x', Some errProcessExited)
        else Some (x', None)
    end.

(** The closure [updateRes] of [awaitVars]. *)
Definition updateRes (wantKeys : gset string) (vars res : gmap string string)
    : gmap string string :=
  map_fold (fun k v res => if decide (k ∈ wantKeys) then <[k := v]> res else res) res vars.

Fixpoint awaitVars_loop (wantKeys : gset string) (x : Cmd) (res : gmap string string)
    (wakes : list (list Event)) : option (Cmd * gmap string string) :=
  if negb (exited x) && bool_decide (size res < size wantKeys)%nat then
    match wakes with
    | [] => None
    | evs :: wakes' =>
        let x' := cond_Wait evs x in
        awaitVars_loop wantKeys x' (updateRes wantKeys (recvVars x') res) wakes'
    end
  else Some (x, res).

(** [awaitVars]; [wantKeys], a [map[string]bool] that only ever holds [true],
    is the set of its keys. *)
Definition awaitVars (x : Cmd) (keys : list string) (wakes : list (list Event))
    : option (Cmd * (option (gmap string string) * option error)) :=
  if negb (started x) then Some (x, (None, Some errDidNotCallStart))
  else if calledWait x then Some (x, (None, Some errAlreadyCalledWait))
  else
    let wantKeys : gset string := foldl (fun s key => {[key]} ∪ s) ∅ keys in
    let res := updateRes wantKeys (recvVars x) ∅ in
    match awaitVars_loop wantKeys x res wakes with
    | None => None
    | Some (x', res) =>
        if bool_decide (size res < size wantKeys)%nat
        then Some (x', (None, Some errProcessExited))
        else Some (x', (Some res, None))
    end.

(** [wait]; the value comes from [waitChan], and with none there yet the
    caller sleeps ([None]). *)
Definition wait (x : Cmd) : option (Cmd * option error) :=
  if negb (started x) then Some (x, Some errDidNotCallStart)
  else if calledWait x then Some (x, Some errAlreadyCalledWait)
  else
    let x := set_calledWait true x in
    match waitChan x with
    | None => None
    | Some r => Some (set_waitChan None x, r)
    end.

(** ** Signals *)

(** [signal]; [delivery] is what [Process.Signal] returns when it is called:
    nil, or an error of the os package with the given [Error()] text.  The
    result is the error and whether [Process.Signal] was called. *)
Definition signal (delivery : option string) (x : Cmd) : option error * bool :=
  if negb (started x) then (Some errDidNotCallStart, false)
  else if calledWait x then (Some errAlreadyCalledWait, false)
  else if negb (isRunning x) then (None, false)
  else
    match delivery with
    | Some text =>
        if bool_decide (text ≠ errFinished) then (Some (errorsNew text), true)
        else (None, true)
    | None => (None, true)
    end.

(** ** Waiting for the exit, and the calls composed of others *)

(** What the goroutine of [startExitWaiter] does while a caller sleeps on
    [waitChan].  With [exit = Some waitErr] the process exits and
    [exec.Cmd.Wait] returns [waitErr]; with [None] it does not exit.  The
    goroutine exists once on a handle whose process runs; on any other
    handle nothing happens. *)
Definition exitWaiter (exit : option (option error)) (x : Cmd) : Cmd * list Object :=
  match exit with
  | Some waitErr => if isRunning x then startExitWaiter waitErr x else (x, [])
  | None => (x, [])
  end.

(** The type assertion of [err] to an [exec.ExitError]. *)
Definition isExitError (err : option error) : bool :=
  match err with
  | Some (ExitError _) => true
  | _ => false
  end.

(** [terminate]: the handle afterwards, the [Close] calls the exit waiter
    made during the call, and the error. *)
Definition terminate (delivery : option string) (exit : option (option error)) (x : Cmd)
    : option (Cmd * list Object * option error) :=
  match (signal delivery x).1 with
  | Some err => Some (x, [], Some err)
  | None =>
      let '(x, closed) := exitWaiter exit x in
      match wait x with
      | None => None
      | Some (x, err) =>
          if bool_decide (err ≠ None) && negb (isExitError err)
          then Some (x, closed, err)
          else Some (x, closed, None)
      end
  end.

(** [run]: the handle afterwards, the [Close] calls made by [start] and by
    the exit waiter, and the error. *)
Definition run (os : startOS) (sh : Shell) (exit : option (option error)) (x : Cmd)
    : option (Cmd * list Object * option error) :=
  let '(x, closed, err) := start os sh x in
  match err with
  | Some err => Some (x, closed, Some err)
  | None =>
      let '(x, closed') := exitWaiter exit x in
      match wait x with
      | None => None
      | Some (x, err) => Some (x, (closed ++ closed')%list, err)
      end
  end.

(** [stdout], [stdoutStderr] and [combinedOutput]: a buffer is a new
    [bytes.Buffer], and a text is what its [String()] returns after [run]. *)
Definition stdout (buffer : Object) (text : string) (os : startOS) (sh : Shell)
    (exit : option (option error)) (x : Cmd)
    : option (Cmd * list Object * (string * option error)) :=
  if calledStart x then Some (x, [], ("", Some errAlreadyCalledStart))
  else
    let x := set_stdoutWriters (stdoutWriters x ++ [buffer]) x in
    match run os sh exit x with
    | None => None
    | Some (x, closed, err) => Some (x, closed, (text, err))
    end.

Definition stdoutStderr (outBuffer errBuffer : Object) (outText errText : string)
    (os : startOS) (sh : Shell) (exit : option (option error)) (x : Cmd)
    : option (Cmd * list Object * (string * string * option error)) :=
  if calledStart x then Some (x, [], ("", "", Some errAlreadyCalledStart))
  else
    let x := set_stdoutWriters (stdoutWriters x ++ [outBuffer]) x in
    let x := set_stderrWriters (stderrWriters x ++ [errBuffer]) x in
    match run os sh exit x with
    | None => None
    | Some (x, closed, err) => Some (x, closed, (outText, errText, err))
    end.

Definition combinedOutput (buffer : Object) (text : string) (os : startOS) (sh : Shell)
    (exit : option (option error)) (x : Cmd)
    : option (Cmd * list Object * (string * option error)) :=
  if calledStart x then Some (x, [], ("", Some errAlreadyCalledStart))
  else
    let x := set_stdoutWriters (stdoutWriters x ++ [buffer]) x in
    let x := set_stderrWriters (stderrWriters x ++ [buffer]) x in
    match run os sh exit x with
    | None => None
    | Some (x, closed, err) => Some (x, closed, (text, err))
    end.

(** ** The process id, new handles, and the report of errors *)

(** [Pid]; [c.c.Process] is nil until [exec.Cmd.Start] has succeeded, and
    reading its field [Pid] then panics. *)
Definition Pid (x : Cmd) : outcome Z :=
  if negb (started x) then Returns (-1)
  else match exec_Process (c x) with
       | Some pid => Returns pid
       | None => Panics
       end.

(** [newCmd]; [lookPath] is [exec.LookPath]. *)
Definition newCmd (lookPath : string → error + string) (sh : Shell)
    (vars : gmap string string) (name : string) (args : list string)
    : Shell * (option Cmd * option error) :=
  if decide (filepath_Base name = name) then
    match lookPath name with
    | inl err => (sh, (None, Some err))
    | inr lp => newCmdInternal sh vars lp args
    end
  else newCmdInternal sh vars name args.

Definition errorIsOk (x : Cmd) (err : option error) : bool :=
  if ExitErrorIsOk x && isExitError err then true
  else bool_decide (err = None).

(** [handleError]: the handle afterwards and, when [Shell.HandleError] is
    called, the error it is called with. *)
Definition handleError (err : option error) (x : Cmd) : Cmd * option (option error) :=
  let x := set_Err err x in
  if negb (errorIsOk x err) then (x, Some err) else (x, None).

(** ** Vocabulary of the statements *)

(** The part of [vars] whose keys are wanted. *)
Definition restrict (wantKeys : gset string) (vars : gmap string string)
    : gmap string string :=
  filter (fun kv => kv.1 ∈ wantKeys) vars.

(** The handle after the first [n] wake-ups. *)
Definition after_wakes (x : Cmd) (wakes : list (list Event)) (n : nat) : Cmd :=
  foldl (fun x evs => cond_Wait evs x) x (take n wakes).

(** The decoder after the bytes [l] of a line, none of them a newline, have
    been written to a decoder at the start of a line. *)
Definition after_line (l : list byte) : recvWriter :=
  let n := length msgPrefix in
  if bool_decide (length l < n)%nat then mkRecvWriter l false false
  else if bool_decide (take n l = msgPrefix) then mkRecvWriter (drop n l) true false
  else mkRecvWriter [] true true.

(** The bytes after the last newline of [p], for a line that starts with [l]. *)
Definition last_line (l p : list byte) : list byte :=
  foldl (fun acc b => if decide (b = newline) then [] else (acc ++ [b])%list) l p.

(** An object that [os.OpenFile] hands out during the call of [start]. *)
Definition opened (os : startOS) (o : Object) : Prop :=
  ∃ name, os_OpenFile os name = inr o.

(** A call that attaches a sink to a handle: [AddStdoutWriter],
    [AddStderrWriter], [StdoutPipe] and [StderrPipe], the last two with the
    address of the pipe that [NewBufferedPipe] makes. *)
Inductive Registration : Type :=
| AddStdoutWriter (wc : Object)
| AddStderrWriter (wc : Object)
| StdoutPipe (addr : N)
| StderrPipe (addr : N).

Definition register (x : Cmd) (r : Registration) : Cmd :=
  match r with
  | AddStdoutWriter wc => (addStdoutWriter wc x).1
  | AddStderrWriter wc => (addStderrWriter wc x).1
  | StdoutPipe addr => (stdoutPipe (Ref addr) x).1
  | StderrPipe addr => (stderrPipe (Ref addr) x).1
  end.

End gosh.

(** ** Concrete handles and a concrete environment

    Used to run the definitions on examples. *)

Definition bytes_of (s : string) : list byte := String.list_byte_of_string s.

(** A small stand-in for [json.Unmarshal]: it decodes three fixed texts and
    rejects everything else. *)
Definition demo_Unmarshal (p : list byte) : error + msg :=
  if decide (p = bytes_of "READY") then inr (mkMsg "ready" ∅)
  else if decide (p = bytes_of "A1") then inr (mkMsg "vars" {["a" := "1"]})
  else if decide (p = bytes_of "A2B3") then inr (mkMsg "vars" (<["a" := "2"]> {["b" := "3"]}))
  else if decide (p = bytes_of "BOGUS") then inr (mkMsg "bogus" ∅)
  else inl (errorsNew "invalid character").

Definition demoExt : External := {|
  msgPrefix := bytes_of "#! ";
  envWatchParent := "GOSH_WATCH_PARENT";
  envExitAfter := "GOSH_EXIT_AFTER";
  json_Unmarshal := demo_Unmarshal;
  mapToSlice := fun m => (fun kv => fst kv ++ "=" ++ snd kv) <$> map_to_list m;
  Duration_String := fun _ => "1s";
  filepath_Join := fun d f => d ++ "/" ++ f;
  filepath_Base := fun p => p
|}.

Definition demoShell : Shell := mkShell false 1.

Definition demoOS : startOS := mkStartOS "20060102.150405.000000" (fun name => inr (File name)) (inr 4242).

(** A handle as [newCmdInternal] makes it for [/bin/echo hello]. *)
Definition demoCmd : Cmd :=
  mkCmd None "/bin/echo" ∅ ["/bin/echo"; "hello"] false 0 false "" false ""
    execCmd_zero None false false None false false [] [] [] false ∅.

(** The same handle once its process runs. *)
Definition demoStarted : Cmd := set_started true (set_calledStart true demoCmd).


(** A handle with one registered sink, an operating system on which the
    launch fails, and the handle after that failed [start]. *)
Definition demoSink : Cmd := (addStdoutWriter (Ref 7) demoCmd).1.
Definition demoFailOS : startOS :=
  mkStartOS "20060102.150405.000000" (fun name => inr (File name))
    (inl (errorsNew "exec: not found")).
Definition demoFailed : Cmd := (start (ext := demoExt) demoFailOS demoShell demoSink).1.1.

(** The handle after a [start] that launched the process. *)
Definition demoRunning : Cmd := (start (ext := demoExt) demoOS demoShell demoSink).1.1.

(** The running handle after its process has exited with status 1, a
    handle that propagates the output of the child, and a handle whose
    argument list was emptied. *)
Definition demoExited : Cmd := (startExitWaiter (Some (ExitError 1)) demoRunning).1.
Definition demoPropagate : Cmd :=
  mkCmd None "/bin/echo" ∅ ["/bin/echo"; "hello"] false 0 true "" false ""
    execCmd_zero None false false None false false [] [] [] false ∅.
Definition demoNoArgs : Cmd :=
  mkCmd None "/bin/echo" ∅ [] false 0 false "" false ""
    execCmd_zero None false false None false false [] [] [] false ∅.
Definition demoRegistrations : list Registration :=
  [AddStdoutWriter OsStdout; AddStdoutWriter (Ref 7); StderrPipe 9].

(** The handle [demoCmd] after [combinedOutput] and after [stdout], with the
    buffer at address 3, for a process that exits with status 0. *)
Definition demoCombined : Cmd :=
  set_waitChan None (set_calledWait true (set_exited true
    (start (ext := demoExt) demoOS demoShell
       (set_stderrWriters [Ref 3] (set_stdoutWriters [Ref 3] demoCmd))).1.1)).
Definition demoCaptured : Cmd :=
  set_waitChan None (set_calledWait true (set_exited true
    (start (ext := demoExt) demoOS demoShell (set_stdoutWriters [Ref 3] demoCmd)).1.1)).

(** ** Properties *)

Section properties.
Context {ext : External}.

(** *** The resource registry *)

Lemma closeClosers_loop_elem (cm : gmap Object bool) (cs : list Object) (o : Object) :
  o ∈ closeClosers_loop cm cs ↔ o ∈ cs ∧ default false (cm !! o) = false.
Proof.
  revert cm. induction cs as [|y cs IH]; intros cm; simpl.
  - split; [by intros ?%elem_of_nil | by intros [?%elem_of_nil _]].
  - destruct (default false (cm !! y)) eqn:Hy; simpl.
    + rewrite IH, elem_of_cons. split; [naive_solver|].
      intros [[->|?] Ho]; [congruence | done].
    + rewrite elem_of_cons, IH, elem_of_cons. split.
      * intros [->|[Hin Ho]]; [by auto|]. split; [by auto|].
        destruct (decide (y = o)) as [->|Hne]; [done|].
        by rewrite lookup_insert_ne in Ho.
      * intros [[->|Hin] Ho]; [by left|].
        destruct (decide (y = o)) as [->|Hne]; [by left|].
        right. split; [done|]. by rewrite lookup_insert_ne.
Qed.


Lemma closeClosers_elem (x : Cmd) (o : Object) : o ∈ closeClosers x ↔ o ∈ closers x.
Proof.
  unfold closeClosers. rewrite closeClosers_loop_elem, lookup_empty. naive_solver.
Qed.



(** *** Waiting *)

Lemma restrict_lookup (wantKeys : gset string) (vars : gmap string string) (k : string) :
  restrict wantKeys vars !! k = if decide (k ∈ wantKeys) then vars !! k else None.
Proof.
  unfold restrict. destruct (decide (k ∈ wantKeys)) as [Hk|Hk].
  - destruct (vars !! k) as [v|] eqn:Hv.
    + by apply map_lookup_filter_Some.
    + apply map_lookup_filter_None. by left.
  - apply map_lookup_filter_None. right. intros v _. exact Hk.
Qed.

Lemma updateRes_lookup (wantKeys : gset string) (vars res : gmap string string) (k : string) :
  updateRes wantKeys vars res !! k
  = match restrict wantKeys vars !! k with Some v => Some v | None => res !! k end.
Proof.
  unfold updateRes.
  apply (map_fold_weak_ind
           (fun r m => r !! k = match restrict wantKeys m !! k with
                                | Some v => Some v
                                | None => res !! k
                                end)).
  - by rewrite restrict_lookup, lookup_empty, decide_bool_decide, Tauto.if_same.
  - intros i v m r Hi IH. rewrite restrict_lookup in *.
    destruct (decide (i ∈ wantKeys)) as [Hiw|Hiw].
    + destruct (decide (i = k)) as [->|Hne].
      * rewrite decide_True by done. by rewrite !lookup_insert_eq.
      * by rewrite !lookup_insert_ne.
    + destruct (decide (i = k)) as [->|Hne].
      * rewrite decide_False in * by done. done.
      * by rewrite lookup_insert_ne.
Qed.

Lemma updateRes_empty (wantKeys : gset string) (vars : gmap string string) :
  updateRes wantKeys vars ∅ = restrict wantKeys vars.
Proof.
  apply map_eq. intros k. rewrite updateRes_lookup, lookup_empty.
  by destruct (restrict wantKeys vars !! k).
Qed.

Lemma updateRes_restrict (wantKeys : gset string) (vars vars' : gmap string string) :
  dom vars ⊆ dom vars' →
  updateRes wantKeys vars' (restrict wantKeys vars) = restrict wantKeys vars'.
Proof.
  intros Hdom. apply map_eq. intros k. rewrite updateRes_lookup.
  destruct (restrict wantKeys vars' !! k) eqn:Hk; [done|].
  rewrite restrict_lookup in *. destruct (decide (k ∈ wantKeys)); [|done].
  apply not_elem_of_dom. apply not_elem_of_dom in Hk. set_solver.
Qed.

Lemma restrict_dom (wantKeys : gset string) (vars : gmap string string) :
  dom (restrict wantKeys vars) = wantKeys ∩ dom vars.
Proof.
  apply set_eq. intros k.
  rewrite elem_of_intersection, !elem_of_dom, restrict_lookup.
  destruct (decide (k ∈ wantKeys)); [naive_solver|].
  split; [by intros [? ?] | tauto].
Qed.

Lemma restrict_size (wantKeys : gset string) (vars : gmap string string) :
  (size (restrict wantKeys vars) < size wantKeys)%nat ↔ ¬ wantKeys ⊆ dom vars.
Proof.
  rewrite <- size_dom, restrict_dom. split.
  - intros Hlt Hsub. replace (wantKeys ∩ dom vars) with wantKeys in Hlt by set_solver. lia.
  - intros Hnsub.
    assert (size (wantKeys ∩ dom vars) ≤ size wantKeys)%nat as Hle
      by (apply subseteq_size; set_solver).
    destruct (decide (size wantKeys ≤ size (wantKeys ∩ dom vars))%nat) as [Hge|]; [|lia].
    exfalso. apply Hnsub.
    assert (wantKeys ∩ dom vars = wantKeys) as Heq
      by (apply set_subseteq_size_eq; [set_solver | done]).
    set_solver.
Qed.

Lemma wantKeys_list_to_set (keys : list string) (s : gset string) :
  foldl (fun s key => {[key]} ∪ s) s keys = list_to_set keys ∪ s.
Proof.
  revert s. induction keys as [|k keys IH]; intros s; simpl; [set_solver|].
  rewrite IH. set_solver.
Qed.

Lemma mergeMaps_dom (vars carried : gmap string string) :
  dom vars ⊆ dom (mergeMaps vars carried).
Proof. unfold mergeMaps. rewrite dom_union_L. set_solver. Qed.

Lemma deliver_dom (x : Cmd) (e : Event) : dom (recvVars x) ⊆ dom (recvVars (deliver x e)).
Proof. destruct e; simpl; [done | apply mergeMaps_dom | done]. Qed.

Lemma cond_Wait_dom (evs : list Event) (x : Cmd) :
  dom (recvVars x) ⊆ dom (recvVars (cond_Wait evs x)).
Proof.
  unfold cond_Wait. revert x. induction evs as [|e evs IH]; intros x; simpl; [done|].
  etrans; [apply (deliver_dom x e) | apply IH].
Qed.

Lemma awaitReady_loop_done (x x' : Cmd) (wakes : list (list Event)) :
  awaitReady_loop x wakes = Some x' → exited x' = true ∨ recvReady x' = true.
Proof.
  revert x. induction wakes as [|evs wakes IH]; intros x; simpl.
  - destruct (exited x) eqn:He, (recvReady x) eqn:Hr; simpl; intros [= <-]; auto.
  - destruct (exited x) eqn:He, (recvReady x) eqn:Hr; simpl;
      [intros [= <-]; auto.. | apply IH].
Qed.

Lemma awaitReady_loop_now (x : Cmd) (wakes : list (list Event)) :
  exited x = true ∨ recvReady x = true → awaitReady_loop x wakes = Some x.
Proof.
  intros H. destruct wakes; simpl;
    destruct (exited x), (recvReady x); simpl; try done; naive_solver.
Qed.

Lemma awaitVars_loop_done (wantKeys : gset string) (x x' : Cmd)
    (res' : gmap string string) (wakes : list (list Event)) :
  awaitVars_loop wantKeys x (restrict wantKeys (recvVars x)) wakes = Some (x', res') →
  res' = restrict wantKeys (recvVars x')
  ∧ (exited x' = true ∨ wantKeys ⊆ dom (recvVars x')).
Proof.
  revert x. induction wakes as [|evs wakes IH]; intros x; simpl.
  - destruct (exited x) eqn:He; simpl.
    + intros [= <- <-]. auto.
    + case_bool_decide as Hsz; [done|]. intros [= <- <-]. split; [done|].
      right. rewrite restrict_size in Hsz. by apply dec_stable.
  - destruct (exited x) eqn:He; simpl.
    + intros [= <- <-]. auto.
    + case_bool_decide as Hsz.
      * rewrite updateRes_restrict by apply cond_Wait_dom. apply IH.
      * intros [= <- <-]. split; [done|].
        right. rewrite restrict_size in Hsz. by apply dec_stable.
Qed.

Lemma awaitVars_loop_now (wantKeys : gset string) (x : Cmd) (wakes : list (list Event)) :
  exited x = true ∨ wantKeys ⊆ dom (recvVars x) →
  awaitVars_loop wantKeys x (restrict wantKeys (recvVars x)) wakes
  = Some (x, restrict wantKeys (recvVars x)).
Proof.
  intros H.
  assert (negb (exited x)
          && bool_decide (size (restrict wantKeys (recvVars x)) < size wantKeys)%nat
          = false) as Hcond.
  { destruct H as [->| Hsub]; [done|]. apply andb_false_intro2.
    apply bool_decide_eq_false. rewrite restrict_size. tauto. }
  destruct wakes; simpl; by rewrite Hcond.
Qed.

Lemma awaitVars_loop_state (wantKeys : gset string) (x x' : Cmd)
    (res res' : gmap string string) (wakes : list (list Event)) :
  awaitVars_loop wantKeys x res wakes = Some (x', res') →
  ∃ n, x' = after_wakes x wakes n.
Proof.
  revert x res. induction wakes as [|evs wakes IH]; intros x res; simpl.
  - destruct (_ && _); [done|]. intros [= <- <-]. by exists 0%nat.
  - destruct (_ && _).
    + intros [n ->]%IH. by exists (S n).
    + intros [= <- <-]. by exists 0%nat.
Qed.

Lemma awaitVars_result (x x' : Cmd) (keys : list string) (wakes : list (list Event))
    (r : option (gmap string string) * option error) :
  started x = true → calledWait x = false →
  awaitVars x keys wakes = Some (x', r) →
  (∃ n, x' = after_wakes x wakes n)
  ∧ ((list_to_set keys ⊆ dom (recvVars x')
      ∧ r = (Some (restrict (list_to_set keys) (recvVars x')), None))
     ∨ (¬ list_to_set keys ⊆ dom (recvVars x')
        ∧ exited x' = true ∧ r = (None, Some errProcessExited))).
Proof.
  intros Hs Hw. unfold awaitVars. rewrite Hs, Hw. simpl.
  rewrite wantKeys_list_to_set, (right_id_L ∅ (∪)), updateRes_empty.
  destruct (awaitVars_loop _ _ _ _) as [[x1 res1]|] eqn:Hloop; [|done].
  pose proof (awaitVars_loop_state _ _ _ _ _ _ Hloop) as Hn.
  apply awaitVars_loop_done in Hloop as [-> Hdone].
  case_bool_decide as Hsz; intros [= <- <-]; (split; [done|]);
    rewrite restrict_size in Hsz.
  - right. destruct Hdone; [done | tauto].
  - left. split; [by apply dec_stable | done].
Qed.

(** C1, as the code has it.  On a handle that was started and not yet waited
    for, [awaitReady] returns success whenever the ready flag is set when it
    evaluates its condition, also when the exited flag is set as well, and it
    returns [errProcessExited] only when the process has exited with the
    ready flag not set; [awaitVars] likewise returns the requested variables
    whenever every requested key is present, also when the process has
    exited, and [errProcessExited] only when it has exited with a requested
    key missing.  With both conditions true at the call, both return at
    once. *)
Theorem await_satisfied_wins (x : Cmd) (keys : list string) (wakes : list (list Event)) :
  started x = true → calledWait x = false →
  (exited x = true → recvReady x = true → awaitReady x wakes = Some (x, None))
  ∧ (∀ x' r, awaitReady x wakes = Some (x', r) →
       (recvReady x' = true ∧ r = None)
       ∨ (recvReady x' = false ∧ exited x' = true ∧ r = Some errProcessExited))
  ∧ (exited x = true → list_to_set keys ⊆ dom (recvVars x) →
       awaitVars x keys wakes
       = Some (x, (Some (restrict (list_to_set keys) (recvVars x)), None)))
  ∧ (∀ x' r, awaitVars x keys wakes = Some (x', r) →
       (list_to_set keys ⊆ dom (recvVars x') ∧ ∃ res, r = (Some res, None))
       ∨ (¬ list_to_set keys ⊆ dom (recvVars x')
          ∧ exited x' = true ∧ r = (None, Some errProcessExited))).
Proof.
  intros Hs Hw. repeat split.
  - intros He Hr. unfold awaitReady. rewrite Hs, Hw. simpl.
    rewrite awaitReady_loop_now by auto. by rewrite Hr.
  - intros x' r. unfold awaitReady. rewrite Hs, Hw. simpl.
    destruct (awaitReady_loop x wakes) as [x1|] eqn:Hloop; [|done].
    apply awaitReady_loop_done in Hloop.
    destruct (recvReady x1) eqn:Hr; simpl; intros [= <- <-]; [by left|].
    right. destruct Hloop; [done | congruence].
  - intros He Hsub. unfold awaitVars. rewrite Hs, Hw. simpl.
    rewrite wantKeys_list_to_set, (right_id_L ∅ (∪)), updateRes_empty.
    rewrite awaitVars_loop_now by auto.
    rewrite bool_decide_eq_false_2; [done|]. rewrite restrict_size. tauto.
  - intros x' r Hr.
    destruct (awaitVars_result _ _ _ _ _ Hs Hw Hr) as [_ [[Hsub ->]|Hno]]; [|by right].
    left. eauto.
Qed.

(** C9.  A successful [awaitVars] returns a mapping whose keys are exactly
    the requested keys, each with the value the shared mapping [recvVars]
    holds for it when the call returns, which is the state after some number
    of wake-ups; variables that were received and not requested are absent. *)
Theorem awaitVars_exactly_requested (x x' : Cmd) (keys : list string)
    (wakes : list (list Event)) (res : gmap string string) :
  awaitVars x keys wakes = Some (x', (Some res, None)) →
  dom res = list_to_set keys
  ∧ (∀ k, k ∈ keys → res !! k = recvVars x' !! k)
  ∧ (∀ k, k ∉ keys → res !! k = None)
  ∧ ∃ n, x' = after_wakes x wakes n.
Proof.
  intros Hr.
  assert (started x = true ∧ calledWait x = false) as [Hs Hw].
  { unfold awaitVars in Hr. destruct (started x), (calledWait x); simpl in Hr; done. }
  destruct (awaitVars_result _ _ _ _ _ Hs Hw Hr) as [Hn [[Hsub [= ->]]|(_ & _ & [=])]].
  repeat split; [| | |done].
  - rewrite restrict_dom. set_solver.
  - intros k Hk. rewrite restrict_lookup, decide_True; [done | set_solver].
  - intros k Hk. rewrite restrict_lookup, decide_False; [done | set_solver].
Qed.

(** *** Cloning *)

(** C2, as the code has it.  Under a shell that has not begun its cleanup,
    the clone of a handle whose argument list starts with its path (as
    [newCmdInternal] builds it) is a fresh handle, not started, with the
    path, the argument list, the environment mapping, the scalar flags and
    also the stdin text of the original; the sinks are not copied: the sink
    lists, the registry of closers and the stdin pipe of the clone are
    empty. *)
Theorem clone_copies_configuration (sh : Shell) (x : Cmd) (args : list string) :
  calledCleanup sh = false → Args x = Path x :: args →
  ∃ res, clone sh x = Returns (mkShell false (S (cmds sh)), (Some res, None))
    ∧ Path res = Path x ∧ Args res = Args x ∧ Vars res = Vars x
    ∧ IgnoreParentExit res = IgnoreParentExit x ∧ ExitAfter res = ExitAfter x
    ∧ PropagateOutput res = PropagateOutput x ∧ OutputDir res = OutputDir x
    ∧ ExitErrorIsOk res = ExitErrorIsOk x
    ∧ Stdin res = Stdin x
    ∧ stdinWriteCloser res = None ∧ stdoutWriters res = [] ∧ stderrWriters res = []
    ∧ closers res = []
    ∧ calledStart res = false ∧ calledWait res = false ∧ started res = false
    ∧ exited res = false ∧ recvReady res = false ∧ recvVars res = ∅
    ∧ c res = execCmd_zero.
Proof.
  intros Hsh Hargs. unfold clone, newCmdInternal. rewrite Hargs, Hsh. simpl.
  eexists. split; [reflexivity|]. simpl. by repeat split.
Qed.

(** *** Signals *)

(** C3, as the code has it.  [signal] on a handle whose process was never
    started returns [errDidNotCallStart], and after [wait] it returns
    [errAlreadyCalledWait], in both cases without calling [Process.Signal];
    on a started handle not yet waited for whose process has exited it
    returns success without calling [Process.Signal]; while the process runs
    it calls [Process.Signal] and returns success when that succeeds or
    fails with the text of [errFinished], and the error otherwise. *)
Theorem signal_cases (delivery : option string) (x : Cmd) :
  (started x = false → signal delivery x = (Some errDidNotCallStart, false))
  ∧ (started x = true → calledWait x = true →
       signal delivery x = (Some errAlreadyCalledWait, false))
  ∧ (started x = true → calledWait x = false → exited x = true →
       signal delivery x = (None, false))
  ∧ (started x = true → calledWait x = false → exited x = false →
       signal delivery x
       = match delivery with
         | Some text =>
             if decide (text = errFinished) then (None, true)
             else (Some (errorsNew text), true)
         | None => (None, true)
         end).
Proof.
  unfold signal, isRunning. repeat split.
  - by intros ->.
  - by intros -> ->.
  - by intros -> -> ->.
  - intros -> -> ->. simpl. destruct delivery as [text|]; [|done].
    case_bool_decide; case_decide; congruence.
Qed.

(** *** Starting *)

Lemma makeStdoutStderr_calledStart (os : startOS) (x : Cmd) :
  calledStart (makeStdoutStderr os x).1 = calledStart x.
Proof.
  unfold makeStdoutStderr. destruct x as [? ? ? ? ? ? po od ? ? ? ? ? ? ? ? ? ? ? ? ? ?].
  unfold makeStdoutStderr_switch. simpl. destruct po; simpl;
    repeat (first [case_bool_decide | destruct (os_OpenFile _ _)]; simpl); done.
Qed.

Lemma start_body_calledStart (os : startOS) (sh : Shell) (x : Cmd) :
  calledStart (start_body os sh x).1 = true.
Proof.
  unfold start_body. destruct (calledStart x) eqn:Hc; [done|].
  destruct (calledCleanup sh); [done|].
  cbv zeta. simpl.
  case_bool_decide; [destruct (stdinWriteCloser x); [by simpl|]|].
  all: match goal with |- context [makeStdoutStderr ?o ?y] =>
    pose proof (makeStdoutStderr_calledStart o y) as Hm;
    destruct (makeStdoutStderr o y) as [x1 [[out err] [failed|]]]
  end.
  all: simpl in *; try done.
  all: by destruct (exec_Start _).
Qed.

Lemma start_calledStart (os : startOS) (sh : Shell) (x : Cmd) :
  calledStart (start os sh x).1.1 = true.
Proof.
  unfold start. pose proof (start_body_calledStart os sh x) as H.
  by destruct (start_body os sh x).
Qed.


(** *** Stdin *)


(** *** The output multiplexer *)

Lemma snoc_not_nil {A} (l : list A) (a : A) : (l ++ [a])%list ≠ [].
Proof. by destruct l. Qed.

Lemma makeStdoutStderr_switch_hasOut (x : Cmd) :
  stdoutWriters x ≠ [] →
  makeStdoutStderr_switch x
  = (x, if bool_decide (stderrWriters x ≠ [])
        then (Some (lockedWriter sharedMu (MultiWriter (stdoutWriters x))),
              Some (lockedWriter sharedMu (MultiWriter (stderrWriters x))), None)
        else (Some (MultiWriter (stdoutWriters x)), None, None)).
Proof.
  intros Hout. unfold makeStdoutStderr_switch.
  rewrite (bool_decide_eq_true_2 _ Hout). simpl. by case_bool_decide.
Qed.

(** C10.  When [makeStdoutStderr] returns, the list of stdout sinks is not
    empty, whether it fails or not.  When it succeeds, the stdout writer is
    never absent, so the results of the stderr-only branch and of the branch
    without any sink do not occur, and both writers are wrapped in the
    shared lock exactly when the list of stderr sinks is not empty;
    otherwise the stdout writer is the plain fan-out and there is no stderr
    writer. *)
Theorem makeStdoutStderr_wiring (os : startOS) (x : Cmd) :
  ∃ x' out err failed, makeStdoutStderr os x = (x', (out, err, failed))
  ∧ stdoutWriters x' ≠ []
  ∧ (failed = None →
      if bool_decide (stderrWriters x' ≠ [])
      then out = Some (lockedWriter sharedMu (MultiWriter (stdoutWriters x')))
           ∧ err = Some (lockedWriter sharedMu (MultiWriter (stderrWriters x')))
      else out = Some (MultiWriter (stdoutWriters x')) ∧ err = None).
Proof.
  unfold makeStdoutStderr.
  destruct x as [? ? ? ? ? ? po od ? ? ? ? ? ? ? ? ? outs errs ? ? ?]. simpl.
  destruct po; simpl; (case_bool_decide as Hod; simpl;
    [destruct (os_OpenFile os _) as [e1|f1]; simpl;
      [|destruct (os_OpenFile os _) as [e2|f2]; simpl]|]).
  all: rewrite ?makeStdoutStderr_switch_hasOut by apply snoc_not_nil.
  all: simpl; repeat case_bool_decide.
  all: do 4 eexists; (split; [reflexivity|]); simpl.
  all: (split; [apply snoc_not_nil|]); try done.
  all: intros _; by repeat case_bool_decide.
Qed.

(** *** The decoder *)

Lemma after_line_nil : msgPrefix ≠ [] → after_line [] = recvWriter_zero.
Proof.
  intros Hp. unfold after_line. rewrite bool_decide_eq_true_2; [done|].
  destruct msgPrefix; [done | simpl; lia].
Qed.

Lemma Write_loop_byte (l : list byte) (x : Cmd) (b : byte) (p : list byte) :
  b ≠ newline →
  Write_loop (after_line l) x (b :: p) = Write_loop (after_line (l ++ [b])%list) x p.
Proof.
  intros Hb. simpl. rewrite decide_False by done.
  unfold after_line.
  case_bool_decide as Hlt; simpl.
  - case_bool_decide as Hn; simpl.
    + rewrite (drop_ge (l ++ [b])) by lia.
      rewrite (bool_decide_eq_false_2 (_ < _)%nat) by lia.
      by repeat case_bool_decide.
    + rewrite bool_decide_eq_true_2; [done|].
      rewrite length_app in *. simpl in *. lia.
  - rewrite (bool_decide_eq_false_2 (length (l ++ [b]) < _)%nat)
      by (rewrite length_app; lia).
    rewrite (take_app_le l), (drop_app_le l) by lia.
    by destruct (bool_decide (take _ l = _)).
Qed.

Lemma Write_loop_newline (l : list byte) (x : Cmd) (p : list byte) :
  Write_loop (after_line l) x (newline :: p)
  = if bool_decide (take (length msgPrefix) l = msgPrefix) then
      match json_Unmarshal (drop (length msgPrefix) l) with
      | inl err => (after_line l, x, Some err)
      | inr m =>
          if decide (msg_Type m = typeReady) then
            Write_loop recvWriter_zero (set_recvReady true x) p
          else if decide (msg_Type m = typeVars) then
            Write_loop recvWriter_zero
              (set_recvVars (mergeMaps (recvVars x) (msg_Vars m)) x) p
          else (after_line l, x, Some (unknownMessageType (msg_Type m)))
      end
    else Write_loop recvWriter_zero x p.
Proof.
  cbn [Write_loop]. rewrite (decide_True (P := newline = newline)) by done.
  unfold after_line.
  case_bool_decide as Hlt; simpl.
  - rewrite bool_decide_eq_false_2; [done|].
    intros Heq. rewrite <- Heq, length_take in Hlt. lia.
  - by case_bool_decide.
Qed.

Lemma Write_loop_fragment (l1 l2 : list byte) (x : Cmd) (p : list byte) :
  newline ∉ l2 →
  Write_loop (after_line l1) x (l2 ++ p) = Write_loop (after_line (l1 ++ l2)%list) x p.
Proof.
  revert l1. induction l2 as [|b l2 IH]; intros l1 Hnl; simpl app.
  - by rewrite (right_id_L [] app).
  - rewrite Write_loop_byte by set_solver.
    rewrite IH by set_solver. by rewrite <- (assoc_L app).
Qed.

Lemma Write_loop_app (w : recvWriter) (x : Cmd) (p1 p2 : list byte) :
  Write_loop w x (p1 ++ p2)
  = match Write_loop w x p1 with
    | (w1, x1, None) => Write_loop w1 x1 p2
    | failed => failed
    end.
Proof.
  revert w x. induction p1 as [|b p1 IH]; intros w x; [done|].
  cbn [app Write_loop]. destruct (decide (b = newline)) as [_|_].
  - destruct (readPrefix w && negb (skipLine w)); [|apply IH].
    destruct (json_Unmarshal (buf w)) as [err|m]; [done|].
    destruct (decide (msg_Type m = typeReady)); [apply IH|].
    destruct (decide (msg_Type m = typeVars)); [apply IH | done].
  - destruct (negb (skipLine w)); [|apply IH].
    destruct (negb (readPrefix w) && _); [|apply IH].
    destruct (bool_decide _); apply IH.
Qed.

Lemma last_line_newline (l p : list byte) : last_line l (newline :: p) = last_line [] p.
Proof. unfold last_line. cbn [foldl]. by rewrite decide_True. Qed.

Lemma last_line_byte (l p : list byte) (b : byte) :
  b ≠ newline → last_line l (b :: p) = last_line (l ++ [b])%list p.
Proof. intros Hb. unfold last_line. cbn [foldl]. by rewrite decide_False. Qed.

(** After a write that succeeds, the decoder holds what the bytes since the
    last newline make of it. *)
Lemma Write_loop_reach (l : list byte) (x x' : Cmd) (w' : recvWriter) (p : list byte) :
  msgPrefix ≠ [] →
  Write_loop (after_line l) x p = (w', x', None) →
  w' = after_line (last_line l p).
Proof.
  intros Hp. revert l x. induction p as [|b p IH]; intros l x.
  - cbn [Write_loop]. by intros [= <- <-].
  - destruct (decide (b = newline)) as [->|Hb].
    + rewrite Write_loop_newline, last_line_newline, <- after_line_nil by done.
      destruct (bool_decide _); [|apply IH].
      destruct (json_Unmarshal _) as [err|m]; [done|].
      destruct (decide _); [apply IH|]. destruct (decide _); [apply IH | done].
    + rewrite Write_loop_byte, last_line_byte by done. apply IH.
Qed.


(** A whole line written to a decoder that is at the start of a line. *)
Lemma Write_loop_line (l : list byte) (x : Cmd) (more : list byte) :
  msgPrefix ≠ [] → newline ∉ l →
  Write_loop recvWriter_zero x (l ++ newline :: more)
  = Write_loop (after_line l) x (newline :: more).
Proof.
  intros Hp Hl. by rewrite <- after_line_nil, Write_loop_fragment.
Qed.


Lemma Write_loop_ready_line (rest : list byte) (x : Cmd) (m : msg) (more : list byte) :
  msgPrefix ≠ [] → newline ∉ (msgPrefix ++ rest)%list →
  json_Unmarshal rest = inr m → msg_Type m = typeReady →
  Write_loop recvWriter_zero x ((msgPrefix ++ rest) ++ newline :: more)
  = Write_loop recvWriter_zero (set_recvReady true x) more.
Proof.
  intros Hp Hnl Hm Hty. rewrite Write_loop_line, Write_loop_newline by done.
  rewrite take_app_length, drop_app_length, bool_decide_eq_true_2, Hm by done.
  by rewrite decide_True.
Qed.

Lemma mergeMaps_lookup (vars carried : gmap string string) (k : string) :
  mergeMaps vars carried !! k
  = match carried !! k with Some v => Some v | None => vars !! k end.
Proof.
  unfold mergeMaps. rewrite lookup_union.
  by destruct (carried !! k), (vars !! k).
Qed.


(** C6.  Let the decoder be in the state a successful write of the bytes
    [pre] left it in, and let a write complete the current line, whose bytes
    are those of [pre] after its last newline followed by [l].  If the line
    starts with the marker and the rest does not decode, or decodes to a
    message of an unknown type, the write returns that error (and zero);
    if the leading bytes of the line are not the marker, the line changes
    nothing: the write of the rest of the line succeeds, the handle is as it
    was, and the decoder is again at the start of a line. *)
Theorem Write_line_by_marker (x0 x : Cmd) (w : recvWriter) (pre l more : list byte) :
  msgPrefix ≠ [] →
  Write_loop recvWriter_zero x0 pre = (w, x, None) →
  newline ∉ l →
  (∀ rest err,
     (last_line [] pre ++ l)%list = (msgPrefix ++ rest)%list →
     json_Unmarshal rest = inl err →
     (Write w x (l ++ newline :: more)).2 = (0%nat, Some err))
  ∧ (∀ rest m,
       (last_line [] pre ++ l)%list = (msgPrefix ++ rest)%list →
       json_Unmarshal rest = inr m →
       msg_Type m ≠ typeReady → msg_Type m ≠ typeVars →
       (Write w x (l ++ newline :: more)).2
       = (0%nat, Some (unknownMessageType (msg_Type m))))
  ∧ (take (length msgPrefix) (last_line [] pre ++ l)%list ≠ msgPrefix →
       Write w x (l ++ [newline]) = (recvWriter_zero, x, (S (length l), None))
       ∧ Write_loop w x (l ++ newline :: more) = Write_loop recvWriter_zero x more).
Proof.
  intros Hp Hpre Hl.
  rewrite <- (after_line_nil Hp) in Hpre.
  apply Write_loop_reach in Hpre as ->; [|done].
  assert (∀ more', Write_loop (after_line (last_line [] pre)) x (l ++ newline :: more')
                   = Write_loop (after_line (last_line [] pre ++ l)%list) x
                       (newline :: more')) as Hstep
    by (intros more'; by apply Write_loop_fragment).
  split; [|split].
  - intros rest err Hline Herr. unfold Write.
    rewrite Hstep, Write_loop_newline, Hline.
    by rewrite take_app_length, drop_app_length, bool_decide_eq_true_2, Herr.
  - intros rest m Hline Hm Hr Hv. unfold Write.
    rewrite Hstep, Write_loop_newline, Hline.
    rewrite take_app_length, drop_app_length, bool_decide_eq_true_2, Hm by done.
    by rewrite !decide_False.
  - intros Hne. split.
    + unfold Write. rewrite Hstep, Write_loop_newline, bool_decide_eq_false_2 by done.
      cbn [Write_loop]. rewrite length_app. cbn [length]. by rewrite Nat.add_1_r.
    + by rewrite Hstep, Write_loop_newline, bool_decide_eq_false_2.
Qed.

End properties.

(** ** Further properties: the life of a handle *)

Section lifecycle.
Context {ext : External}.

(** *** The registry, in order *)




(** *** The sinks [makeStdoutStderr] attaches *)

(** The handle [makeStdoutStderr] leaves differs from the one it got in the
    three lists only, which it extends. *)
Lemma makeStdoutStderr_shape (os : startOS) (y xm : Cmd) (out err : option ioWriter)
    (failed : option error) :
  makeStdoutStderr os y = (xm, (out, err, failed)) →
  xm = set_closers (closers xm)
         (set_stderrWriters (stderrWriters xm) (set_stdoutWriters (stdoutWriters xm) y))
  ∧ closers y `prefix_of` closers xm
  ∧ (stdoutWriters y ++ [RecvWriter])%list `prefix_of` stdoutWriters xm
  ∧ stderrWriters y `prefix_of` stderrWriters xm
  ∧ (∀ o, o ∈ closers xm → o ∈ closers y ∨ opened os o)
  ∧ (∀ o, o ∈ stdoutWriters xm →
          o ∈ stdoutWriters y ∨ o = RecvWriter
          ∨ (o = OsStdout ∧ PropagateOutput y = true) ∨ (opened os o ∧ o ∈ closers xm))
  ∧ (∀ o, o ∈ stderrWriters xm →
          o ∈ stderrWriters y
          ∨ (o = OsStderr ∧ PropagateOutput y = true) ∨ (opened os o ∧ o ∈ closers xm))
  ∧ (failed = None →
       (PropagateOutput y = true → OsStdout ∈ stdoutWriters xm ∧ OsStderr ∈ stderrWriters xm)
       ∧ (OutputDir y ≠ "" →
            ∃ f1 f2, closers xm = (closers y ++ [f1; f2])%list
                     ∧ f1 ∈ stdoutWriters xm ∧ f2 ∈ stderrWriters xm
                     ∧ opened os f1 ∧ opened os f2)
       ∧ (OutputDir y = "" → closers xm = closers y)
       ∧ (if bool_decide (stderrWriters xm ≠ [])
          then out = Some (lockedWriter sharedMu (MultiWriter (stdoutWriters xm)))
               ∧ err = Some (lockedWriter sharedMu (MultiWriter (stderrWriters xm)))
          else out = Some (MultiWriter (stdoutWriters xm)) ∧ err = None)
       ∧ (OutputDir y = "" → PropagateOutput y = false →
            stdoutWriters xm = (stdoutWriters y ++ [RecvWriter])%list
            ∧ stderrWriters xm = stderrWriters y))
  ∧ (∀ e, failed = Some e →
       OutputDir y ≠ "" ∧ out = None ∧ err = None ∧ ∃ name, os_OpenFile os name = inl e).
Proof.
  unfold makeStdoutStderr.
  destruct y as [? ? ? ? ? ? po od ? ? ? ? ? ? ? ? ? outs errs cls ? ?]. simpl.
  destruct po; simpl; (case_bool_decide as Hod; simpl;
    repeat match goal with
           | |- context [match os_OpenFile os ?n with _ => _ end] =>
               destruct (os_OpenFile os n) eqn:?; simpl
           end).
  all: rewrite ?makeStdoutStderr_switch_hasOut by apply snoc_not_nil.
  all: simpl; intros Heq; repeat case_bool_decide; simplify_eq; simpl in *.
  all: rewrite <- ?(assoc_L app) in *; simpl in *.
  all: (split; [vm_compute; reflexivity|]).
  all: unfold opened.
  all: repeat first
         [ match goal with |- _ ∧ _ => split end
         | match goal with |- _ = _ → _ => intros ? end
         | match goal with |- ∀ e : error, _ => intros ? end ];
       simplify_eq.
  all: try done.
  all: try (by apply prefix_app_r).
  all: try (by eexists; rewrite <- (assoc_L app)).
  all: try (by eexists).
  all: try (by intros; do 2 eexists; (split; [reflexivity|]); set_solver).
  all: try (intros ? Ho; rewrite ?elem_of_app, ?elem_of_cons, ?elem_of_nil in Ho;
            destruct_or?; subst; rewrite ?elem_of_app, ?elem_of_cons; by eauto 10).
  all: rewrite elem_of_app, !elem_of_cons; tauto.
Qed.

(** *** What [start] does to a handle *)

(** What the body of [start] leaves, for a first call: the frame, the three
    lists, and the two ways it ends. *)
Lemma start_body_inv (os : startOS) (sh : Shell) (x x' : Cmd) (err : option error) :
  calledStart x = false →
  start_body os sh x = (x', err) →
  x' = set_closers (closers x')
         (set_stderrWriters (stderrWriters x')
            (set_stdoutWriters (stdoutWriters x')
               (set_started (started x') (set_c (c x') (set_calledStart true x)))))
  ∧ closers x `prefix_of` closers x'
  ∧ stdoutWriters x `prefix_of` stdoutWriters x'
  ∧ stderrWriters x `prefix_of` stderrWriters x'
  ∧ (∀ o, o ∈ closers x' → o ∈ closers x ∨ opened os o)
  ∧ (∀ o, o ∈ stdoutWriters x' →
          o ∈ stdoutWriters x ∨ o = RecvWriter
          ∨ (o = OsStdout ∧ PropagateOutput x = true) ∨ (opened os o ∧ o ∈ closers x'))
  ∧ (∀ o, o ∈ stderrWriters x' →
          o ∈ stderrWriters x
          ∨ (o = OsStderr ∧ PropagateOutput x = true) ∨ (opened os o ∧ o ∈ closers x'))
  ∧ (∀ e, err = Some e →
       started x' = started x ∧ exec_Process (c x') = exec_Process (c x)
       ∧ ((e = errAlreadyCalledCleanup ∧ calledCleanup sh = true)
          ∨ (e = errStdinConflict ∧ Stdin x ≠ "" ∧ is_Some (stdinWriteCloser x))
          ∨ (OutputDir x ≠ "" ∧ ∃ name, os_OpenFile os name = inl e)
          ∨ exec_Start os = inl e))
  ∧ (err = None →
       calledCleanup sh = false ∧ started x' = true
       ∧ (Stdin x = "" ∨ stdinWriteCloser x = None)
       ∧ (∃ pid, exec_Start os = inr pid ∧ exec_Process (c x') = Some pid)
       ∧ exec_Path (c x') = Path x ∧ exec_Args (c x') = Args x
       ∧ exec_Env (c x')
         = mapToSlice
             (let vars := copyMap (Vars x) in
              let vars :=
                if IgnoreParentExit x then delete envWatchParent vars
                else <[envWatchParent := "1"]> vars in
              if bool_decide (ExitAfter x = 0) then delete envExitAfter vars
              else <[envExitAfter := Duration_String (ExitAfter x)]> vars)
       ∧ exec_Stdin (c x')
         = (if bool_decide (Stdin x ≠ "") then Some (stringsNewReader (Stdin x))
            else exec_Stdin (c x))
       ∧ (stdoutWriters x ++ [RecvWriter])%list `prefix_of` stdoutWriters x'
       ∧ (PropagateOutput x = true →
            OsStdout ∈ stdoutWriters x' ∧ OsStderr ∈ stderrWriters x')
       ∧ (OutputDir x ≠ "" →
            ∃ f1 f2, closers x' = (closers x ++ [f1; f2])%list
                     ∧ f1 ∈ stdoutWriters x' ∧ f2 ∈ stderrWriters x'
                     ∧ opened os f1 ∧ opened os f2)
       ∧ (OutputDir x = "" → closers x' = closers x)
       ∧ (if bool_decide (stderrWriters x' ≠ [])
          then exec_Stdout (c x')
               = Some (lockedWriter sharedMu (MultiWriter (stdoutWriters x')))
               ∧ exec_Stderr (c x')
                 = Some (lockedWriter sharedMu (MultiWriter (stderrWriters x')))
          else exec_Stdout (c x') = Some (MultiWriter (stdoutWriters x'))
               ∧ exec_Stderr (c x') = None)
       ∧ (OutputDir x = "" → PropagateOutput x = false →
            stdoutWriters x' = (stdoutWriters x ++ [RecvWriter])%list
            ∧ stderrWriters x' = stderrWriters x)).
Proof.
  intros Hc. unfold start_body. rewrite Hc.
  destruct (calledCleanup sh) eqn:Hsh.
  { intros [= <- <-]. simpl.
    split; [by destruct x|]. repeat split; try done; set_solver. }
  cbv zeta. simpl.
  destruct (bool_decide (Stdin x ≠ "")) eqn:Hstdin;
    [apply bool_decide_eq_true in Hstdin | apply bool_decide_eq_false in Hstdin];
    [destruct (stdinWriteCloser x) as [wc|] eqn:Hwc|]; simpl.
  { intros [= <- <-]. simpl.
    split; [by destruct x|]. repeat split; try done; set_solver. }
  all: match goal with |- context [makeStdoutStderr ?o ?y] =>
         pose proof (makeStdoutStderr_shape o y) as Hm;
         destruct (makeStdoutStderr o y) as [xm [[out er] failed]]
       end.
  all: specialize (Hm _ _ _ _ eq_refl); simpl in Hm.
  all: destruct Hm as (Hxm & Hcl & Hout & Herr & Hclo & Houto & Herro & Hok & Hfail).
  all: destruct failed as [e0|]; [|destruct (exec_Start os) as [e0|pid] eqn:Hexec].
  all: intros [= <- <-]; simpl.
  all: try specialize (Hok eq_refl); try specialize (Hfail _ eq_refl).
  all: rewrite Hxm; simpl.
  all: (split; [clear; destruct x; reflexivity|]).
  all: (split; [done|]).
  all: (split; [by etrans; [apply prefix_app_r|exact Hout]|]).
  all: (split; [done|]).
  all: (split; [done|]).
  all: (split; [done|]).
  all: (split; [done|]).
  all: (split; [intros e' [= <-] | intros [=]]).
  all: try destruct Hfail as (Hod & _ & _ & Hname).
  all: try destruct Hok as (Hpo & Hod & Hnod & Hw & Hplain).
  all: repeat match goal with |- _ ∧ _ => split end; eauto 10.
  left. by apply dec_stable.
Qed.

Lemma start_body_frame (os : startOS) (sh : Shell) (x x' : Cmd) (err : option error) :
  calledStart x = false →
  start_body os sh x = (x', err) →
  Err x' = Err x ∧ Path x' = Path x ∧ Vars x' = Vars x ∧ Args x' = Args x
  ∧ IgnoreParentExit x' = IgnoreParentExit x ∧ ExitAfter x' = ExitAfter x
  ∧ PropagateOutput x' = PropagateOutput x ∧ OutputDir x' = OutputDir x
  ∧ ExitErrorIsOk x' = ExitErrorIsOk x ∧ Stdin x' = Stdin x
  ∧ stdinWriteCloser x' = stdinWriteCloser x ∧ calledStart x' = true
  ∧ calledWait x' = calledWait x ∧ waitChan x' = waitChan x ∧ exited x' = exited x
  ∧ recvReady x' = recvReady x ∧ recvVars x' = recvVars x.
Proof.
  intros Hc Hs. destruct (start_body_inv os sh x x' err Hc Hs) as [Hfr _].
  rewrite Hfr. simpl. by repeat split.
Qed.

Lemma start_unfold (os : startOS) (sh : Shell) (x x' : Cmd) (closed : list Object)
    (err : option error) :
  start os sh x = (x', closed, err) →
  start_body os sh x = (x', err)
  ∧ closed = (if negb (started x') then closeClosers x' else []).
Proof. unfold start. destruct (start_body os sh x). by intros [= <- <- <-]. Qed.

Lemma start_body_calledStart_false (os : startOS) (sh : Shell) (x x' : Cmd) :
  start_body os sh x = (x', None) → calledStart x = false.
Proof. unfold start_body. by destruct (calledStart x). Qed.



(** X3.  A [start] that succeeds was the first call on the handle, under
    a Shell not cleaned up, with at most one stdin mechanism.  It closes
    nothing, marks the handle started, records the process id that
    [exec.Cmd.Start] gave (which [Pid] then returns), has configured the
    path, the arguments and the stdin reader of the exec.Cmd from the public
    fields, and leaves the public fields and the state shared with the other
    goroutines as they were. *)
Theorem start_success (os : startOS) (sh : Shell) (x x' : Cmd) (closed : list Object) :
  start os sh x = (x', closed, None) →
  calledStart x = false ∧ calledCleanup sh = false
  ∧ (Stdin x = "" ∨ stdinWriteCloser x = None)
  ∧ closed = [] ∧ started x' = true ∧ calledStart x' = true
  ∧ (∃ pid, exec_Start os = inr pid ∧ exec_Process (c x') = Some pid
            ∧ Pid x' = Returns pid)
  ∧ exec_Path (c x') = Path x ∧ exec_Args (c x') = Args x
  ∧ exec_Stdin (c x')
    = (if bool_decide (Stdin x ≠ "") then Some (stringsNewReader (Stdin x))
       else exec_Stdin (c x))
  ∧ Err x' = Err x ∧ Path x' = Path x ∧ Vars x' = Vars x ∧ Args x' = Args x
  ∧ IgnoreParentExit x' = IgnoreParentExit x ∧ ExitAfter x' = ExitAfter x
  ∧ PropagateOutput x' = PropagateOutput x ∧ OutputDir x' = OutputDir x
  ∧ ExitErrorIsOk x' = ExitErrorIsOk x ∧ Stdin x' = Stdin x
  ∧ stdinWriteCloser x' = stdinWriteCloser x
  ∧ calledWait x' = calledWait x ∧ waitChan x' = waitChan x ∧ exited x' = exited x
  ∧ recvReady x' = recvReady x ∧ recvVars x' = recvVars x.
Proof.
  intros [Hs ->]%start_unfold.
  pose proof (start_body_calledStart_false _ _ _ _ Hs) as Hc.
  destruct (start_body_frame os sh x x' _ Hc Hs)
    as (HE&HP&HV&HA&HI&HX&HO&HD&HK&HS&HW&Hc'&Hw&Hch&Hex&Hr&Hrv).
  destruct (start_body_inv os sh x x' _ Hc Hs) as (_&_&_&_&_&_&_&_&Hok).
  destruct (Hok eq_refl) as (Hsh & Hst & Hone & (pid & Hexec & Hproc) & Hpath & Hargs
                             & _ & Hstdin & _).
  rewrite Hst. simpl. repeat split; try done.
  exists pid. repeat split; try done. unfold Pid. by rewrite Hst, Hproc.
Qed.

(** X4.  The environment a successful [start] gives the child is the
    slice of a mapping that agrees with [Vars] on every key but two: the
    exit-after key is present exactly when [ExitAfter] is not zero, with its
    text, and the watch-parent key is present, with value 1, exactly when
    [IgnoreParentExit] is false, whatever [Vars] says for these keys.  The
    mapping [Vars] of the handle itself is not changed. *)
Theorem start_environment (os : startOS) (sh : Shell) (x x' : Cmd) (closed : list Object) :
  start os sh x = (x', closed, None) →
  ∃ vars, exec_Env (c x') = mapToSlice vars
    ∧ vars !! envExitAfter
      = (if bool_decide (ExitAfter x = 0) then None
         else Some (Duration_String (ExitAfter x)))
    ∧ (envWatchParent ≠ envExitAfter →
         vars !! envWatchParent = if IgnoreParentExit x then None else Some "1")
    ∧ (∀ k, k ≠ envWatchParent → k ≠ envExitAfter → vars !! k = Vars x !! k)
    ∧ Vars x' = Vars x.
Proof.
  intros [Hs ->]%start_unfold.
  pose proof (start_body_calledStart_false _ _ _ _ Hs) as Hc.
  destruct (start_body_frame os sh x x' _ Hc Hs) as (_&_&HV&_).
  destruct (start_body_inv os sh x x' _ Hc Hs) as (_&_&_&_&_&_&_&_&Hok).
  destruct (Hok eq_refl) as (_ & _ & _ & _ & _ & _ & Henv & _).
  eexists. split; [exact Henv|]. unfold copyMap. cbv zeta.
  repeat split; [| | |exact HV].
  - case_bool_decide; [by rewrite lookup_delete_eq | by rewrite lookup_insert_eq].
  - intros Hne.
    case_bool_decide; [rewrite lookup_delete_ne by done | rewrite lookup_insert_ne by done];
      (destruct (IgnoreParentExit x); [by rewrite lookup_delete_eq | by rewrite lookup_insert_eq]).
  - intros k Hk1 Hk2.
    case_bool_decide; [rewrite lookup_delete_ne by done | rewrite lookup_insert_ne by done];
      (destruct (IgnoreParentExit x);
       [by rewrite lookup_delete_ne | by rewrite lookup_insert_ne]).
Qed.

(** X5.  [Pid] returns -1 before [start] and after a [start] that failed,
    and the process id [exec.Cmd.Start] gave after one that succeeded; on
    these handles it does not panic. *)
Theorem Pid_after_start (os : startOS) (sh : Shell) (x x' : Cmd) (closed : list Object)
    (err : option error) :
  calledStart x = false → started x = false →
  start os sh x = (x', closed, err) →
  Pid x = Returns (-1)
  ∧ (∀ e, err = Some e → Pid x' = Returns (-1))
  ∧ (err = None → ∃ pid, exec_Start os = inr pid ∧ Pid x' = Returns pid).
Proof.
  intros Hc Hst [Hs ->]%start_unfold.
  destruct (start_body_inv os sh x x' _ Hc Hs) as (_&_&_&_&_&_&_&Hfail&Hok).
  unfold Pid. rewrite Hst. split; [done|]. split.
  - intros e ->. destruct (Hfail e eq_refl) as (-> & _). by rewrite Hst.
  - intros ->. destruct (Hok eq_refl) as (_ & -> & _ & (pid & Hexec & ->) & _).
    by exists pid.
Qed.

(** *** The streams of the parent *)

Lemma register_closers (x : Cmd) (r : Registration) (o : Object) :
  o ∈ closers (register x r) → o ∈ closers x ∨ (o ≠ OsStdout ∧ o ≠ OsStderr).
Proof.
  destruct r as [wc|wc|addr|addr]; simpl;
    unfold addStdoutWriter, addStderrWriter, stdoutPipe, stderrPipe;
    destruct (calledStart x); simpl; auto;
    repeat case_decide; simpl; auto;
    rewrite elem_of_app, list_elem_of_singleton; intros [?| ->]; auto.
Qed.

Lemma registers_closers (x : Cmd) (rs : list Registration) (o : Object) :
  o ∈ closers (foldl register x rs) → o ∈ closers x ∨ (o ≠ OsStdout ∧ o ≠ OsStderr).
Proof.
  revert x. induction rs as [|r rs IH]; intros x; simpl; [auto|].
  intros [Ho|Ho]%IH; [|auto]. by apply register_closers in Ho.
Qed.

Lemma start_closers (os : startOS) (sh : Shell) (x : Cmd) (o : Object) :
  o ∈ closers (start os sh x).1.1 → o ∈ closers x ∨ opened os o.
Proof.
  destruct (start os sh x) as [[x' closed] err] eqn:Hs. simpl.
  apply start_unfold in Hs as [Hs _].
  destruct (calledStart x) eqn:Hc.
  - unfold start_body in Hs. rewrite Hc in Hs. simplify_eq. auto.
  - destruct (start_body_inv os sh x x' _ Hc Hs) as (_&_&_&_&Hclo&_). apply Hclo.
Qed.

Lemma start_closed (os : startOS) (sh : Shell) (x : Cmd) (o : Object) :
  o ∈ (start os sh x).1.2 → o ∈ closers (start os sh x).1.1.
Proof.
  destruct (start os sh x) as [[x' closed] err] eqn:Hs. simpl.
  apply start_unfold in Hs as [_ ->].
  destruct (started x'); simpl; [by intros ?%elem_of_nil|]. apply closeClosers_elem.
Qed.

(** X6.  The streams [os.Stdout] and [os.Stderr] of the parent are never
    closed.  Whatever sinks are attached by [AddStdoutWriter],
    [AddStderrWriter], [StdoutPipe] and [StderrPipe], in any order and also
    when the parent's streams themselves are passed in, neither stream
    enters the registry, and neither the deferred function of [start] nor
    the exit waiter calls [Close] on it, also with [PropagateOutput] set,
    when [start] makes them sinks. *)
Theorem parent_streams_never_closed (os : startOS) (sh : Shell) (x0 : Cmd)
    (rs : list Registration) (waitErr : option error) (o : Object) :
  o = OsStdout ∨ o = OsStderr →
  o ∉ closers x0 →
  (∀ name, os_OpenFile os name ≠ inr o) →
  (o ∉ closers (foldl register x0 rs))
  ∧ (o ∉ (start os sh (foldl register x0 rs)).1.2)
  ∧ (o ∉ (startExitWaiter waitErr (start os sh (foldl register x0 rs)).1.1).2).
Proof.
  intros Ho Hx0 Hos.
  assert (o ∉ closers (foldl register x0 rs)) as Hrs.
  { intros [?|[? ?]]%registers_closers; [done|]. by destruct Ho. }
  assert (o ∉ closers (start os sh (foldl register x0 rs)).1.1) as Hst.
  { intros [?|[name Hname]]%start_closers; [done|]. by apply (Hos name). }
  split; [done|]. split.
  - by intros ?%start_closed.
  - unfold startExitWaiter. simpl.
    by intros ?%(closeClosers_elem (set_exited true _)).
Qed.

(** *** Waiting for the exit *)

(** X7.  On a started handle the first [wait] sleeps while the exit waiter
    has sent nothing, and otherwise returns what the exit waiter sent and
    takes it from the channel.  After that the handle is used up: [wait],
    [awaitReady], [awaitVars], [signal] and [terminate] all return
    [errAlreadyCalledWait] at once and change nothing. *)
Theorem wait_once (x : Cmd) (delivery : option string) (exit : option (option error))
    (keys : list string) (wakes : list (list Event)) :
  started x = true → calledWait x = false →
  (waitChan x = None → wait x = None)
  ∧ (∀ r, waitChan x = Some r →
       ∃ x', wait x = Some (x', r)
         ∧ calledWait x' = true ∧ waitChan x' = None
         ∧ wait x' = Some (x', Some errAlreadyCalledWait)
         ∧ awaitReady x' wakes = Some (x', Some errAlreadyCalledWait)
         ∧ awaitVars x' keys wakes = Some (x', (None, Some errAlreadyCalledWait))
         ∧ signal delivery x' = (Some errAlreadyCalledWait, false)
         ∧ terminate delivery exit x' = Some (x', [], Some errAlreadyCalledWait)).
Proof.
  intros Hs Hw. unfold wait at 1 2. rewrite Hs, Hw. simpl. split.
  - by intros ->.
  - intros r ->. eexists. split; [reflexivity|].
    unfold wait, awaitReady, awaitVars, terminate, signal. simpl. rewrite Hs. by simpl.
Qed.

(** X8.  After a [start] that failed, [wait], [awaitReady], [awaitVars],
    [signal] and [terminate] return [errDidNotCallStart] at once, without
    sleeping and without a signal sent, and [Pid] returns -1. *)
Theorem not_started_guards (os : startOS) (sh : Shell) (x x' : Cmd) (closed : list Object)
    (e : error) (delivery : option string) (exit : option (option error))
    (keys : list string) (wakes : list (list Event)) :
  calledStart x = false → started x = false →
  start os sh x = (x', closed, Some e) →
  wait x' = Some (x', Some errDidNotCallStart)
  ∧ awaitReady x' wakes = Some (x', Some errDidNotCallStart)
  ∧ awaitVars x' keys wakes = Some (x', (None, Some errDidNotCallStart))
  ∧ signal delivery x' = (Some errDidNotCallStart, false)
  ∧ terminate delivery exit x' = Some (x', [], Some errDidNotCallStart)
  ∧ Pid x' = Returns (-1).
Proof.
  intros Hc Hst [Hs _]%start_unfold.
  destruct (start_body_inv os sh x x' _ Hc Hs) as (_&_&_&_&_&_&_&Hfail&_).
  destruct (Hfail e eq_refl) as (Hst' & _). rewrite Hst in Hst'.
  unfold wait, awaitReady, awaitVars, terminate, signal, Pid. by rewrite Hst'.
Qed.

Lemma exitWaiter_running (waitErr : option error) (x : Cmd) :
  started x = true → exited x = false →
  exitWaiter (Some waitErr) x = startExitWaiter waitErr x.
Proof. intros Hs He. unfold exitWaiter, isRunning. by rewrite Hs, He. Qed.

Lemma wait_after_exit (waitErr : option error) (x : Cmd) :
  started x = true → calledWait x = false →
  wait (startExitWaiter waitErr x).1
  = Some (set_waitChan None (set_calledWait true (set_exited true x)), waitErr).
Proof.
  intros Hs Hw. unfold wait, startExitWaiter. simpl. rewrite Hs, Hw. simpl.
  by destruct x.
Qed.

Lemma run_start_failed (os : startOS) (sh : Shell) (exit : option (option error))
    (x x1 : Cmd) (closed : list Object) (e : error) :
  start os sh x = (x1, closed, Some e) →
  run os sh exit x = Some (x1, closed, Some e).
Proof. intros Hs. unfold run. by rewrite Hs. Qed.

Lemma run_start_ok (os : startOS) (sh : Shell) (x x1 : Cmd) (closed : list Object) :
  calledStart x = false → exited x = false → calledWait x = false → waitChan x = None →
  start os sh x = (x1, closed, None) →
  run os sh None x = None
  ∧ ∀ waitErr,
      run os sh (Some waitErr) x
      = Some (set_waitChan None (set_calledWait true (set_exited true x1)),
              closeClosers x1, waitErr).
Proof.
  intros Hc Hex Hw Hch Hs. unfold run. rewrite Hs.
  destruct (start_unfold _ _ _ _ _ _ Hs) as [Hb Hclosed].
  destruct (start_body_frame os sh x x1 _ Hc Hb)
    as (_&_&_&_&_&_&_&_&_&_&_&_&Hw1&Hch1&Hex1&_).
  destruct (start_body_inv os sh x x1 _ Hc Hb) as (_&_&_&_&_&_&_&_&Hok).
  destruct (Hok eq_refl) as (_ & Hst1 & _).
  rewrite Hst1 in Hclosed. simpl in Hclosed. subst closed. split.
  - simpl. unfold wait. rewrite Hst1, Hw1, Hw. simpl. by rewrite Hch1, Hch.
  - intros waitErr. rewrite exitWaiter_running by congruence.
    pose proof (wait_after_exit waitErr x1 Hst1 ltac:(congruence)) as Hwait.
    unfold startExitWaiter in *. simpl in *. by rewrite Hwait.
Qed.

(** X9.  [run] on a fresh handle: when [start] fails, [run] returns that
    error and does not wait, so the handle is not marked as waited for; when
    [start] succeeds, [run] sleeps for ever if the process never exits, and
    otherwise returns what [exec.Cmd.Wait] returned, on a handle marked
    exited and waited for, after the closers were closed. *)
Theorem run_result (os : startOS) (sh : Shell) (x x1 : Cmd) (closed : list Object)
    (err : option error) :
  calledStart x = false → started x = false → exited x = false →
  calledWait x = false → waitChan x = None →
  start os sh x = (x1, closed, err) →
  (∀ e exit, err = Some e →
     run os sh exit x = Some (x1, closed, Some e) ∧ calledWait x1 = false)
  ∧ (err = None →
       run os sh None x = None
       ∧ ∀ waitErr,
           run os sh (Some waitErr) x
           = Some (set_waitChan None (set_calledWait true (set_exited true x1)),
                   closeClosers x1, waitErr)).
Proof.
  intros Hc Hst Hex Hw Hch Hs. split.
  - intros e exit ->. split; [by apply run_start_failed|].
    destruct (start_unfold _ _ _ _ _ _ Hs) as [Hb _].
    destruct (start_body_frame os sh x x1 _ Hc Hb)
      as (_&_&_&_&_&_&_&_&_&_&_&_&Hw1&_).
    congruence.
  - intros ->. by apply (run_start_ok os sh x x1 closed).
Qed.


(** X11.  [terminate] on a started handle not yet waited for.  While the
    process runs: if the signal cannot be delivered (for another reason than
    a process already finished), the error is returned and the handle is not
    waited for; otherwise [terminate] sleeps until the process exits and
    then succeeds whatever the exit status, returning only an error of
    [exec.Cmd.Wait] that is not an exit status.  When the process has exited
    before, no signal is sent and the same holds for the value the exit
    waiter left. *)
Theorem terminate_cases (delivery : option string) (x : Cmd) :
  started x = true → calledWait x = false →
  (exited x = false → waitChan x = None →
     (∀ text exit, delivery = Some text → text ≠ errFinished →
        terminate delivery exit x = Some (x, [], Some (errorsNew text)))
     ∧ (delivery = None ∨ delivery = Some errFinished →
          terminate delivery None x = None
          ∧ ∀ waitErr,
              terminate delivery (Some waitErr) x
              = Some (set_waitChan None (set_calledWait true (set_exited true x)),
                      closeClosers x,
                      if isExitError waitErr then None else waitErr)))
  ∧ (∀ r exit, exited x = true → waitChan x = Some r →
       terminate delivery exit x
       = Some (set_waitChan None (set_calledWait true x), [],
               if isExitError r then None else r)).
Proof.
  intros Hs Hw. split.
  - intros Hex Hch. split.
    + intros text exit -> Hne. unfold terminate, signal, isRunning.
      rewrite Hs, Hw, Hex. simpl. by rewrite bool_decide_eq_true_2.
    + intros Hd.
      assert ((signal delivery x).1 = None) as Hsig.
      { unfold signal, isRunning. rewrite Hs, Hw, Hex. simpl.
        destruct Hd as [->| ->]; [done|]. by rewrite bool_decide_eq_false_2 by auto. }
      unfold terminate. rewrite Hsig. split.
      * simpl. unfold wait. rewrite Hs, Hw. simpl. by rewrite Hch.
      * intros waitErr. rewrite exitWaiter_running by done.
        pose proof (wait_after_exit waitErr x Hs Hw) as Hwait.
        unfold startExitWaiter in *. simpl in *. rewrite Hwait.
        by destruct waitErr as [[]|].
  - intros r exit Hex Hch.
    assert ((signal delivery x).1 = None) as Hsig.
    { unfold signal, isRunning. by rewrite Hs, Hw, Hex. }
    assert (exitWaiter exit x = (x, [])) as Hexit.
    { unfold exitWaiter, isRunning. rewrite Hs, Hex. by destruct exit. }
    assert (wait x = Some (set_waitChan None (set_calledWait true x), r)) as Hwait.
    { unfold wait. rewrite Hs, Hw. simpl. by rewrite Hch. }
    unfold terminate. rewrite Hsig, Hexit, Hwait. by destruct r as [[]|].
Qed.

(** *** Sleeping on the condition variable *)


Lemma cond_Wait_exited (evs : list Event) (x : Cmd) :
  exited (cond_Wait evs x) = true ↔ exited x = true ∨ EvExit ∈ evs.
Proof.
  unfold cond_Wait. revert x. induction evs as [|e evs IH]; intros x; simpl.
  - rewrite elem_of_nil. tauto.
  - rewrite IH, elem_of_cons. destruct e; simpl; naive_solver.
Qed.

Lemma cond_Wait_recvReady (evs : list Event) (x : Cmd) :
  recvReady (cond_Wait evs x) = true ↔ recvReady x = true ∨ EvReady ∈ evs.
Proof.
  unfold cond_Wait. revert x. induction evs as [|e evs IH]; intros x; simpl.
  - rewrite elem_of_nil. tauto.
  - rewrite IH, elem_of_cons. destruct e; simpl; naive_solver.
Qed.

Lemma after_wakes_all (x : Cmd) (evs : list Event) (wakes : list (list Event)) :
  after_wakes x (evs :: wakes) (length (evs :: wakes))
  = after_wakes (cond_Wait evs x) wakes (length wakes).
Proof. done. Qed.


Lemma after_wakes_exited (x : Cmd) (wakes : list (list Event)) :
  exited (after_wakes x wakes (length wakes)) = true
  ↔ exited x = true ∨ EvExit ∈ concat wakes.
Proof.
  revert x. induction wakes as [|evs wakes IH]; intros x.
  - unfold after_wakes. simpl. rewrite elem_of_nil. tauto.
  - rewrite after_wakes_all, IH, cond_Wait_exited. simpl. rewrite elem_of_app. tauto.
Qed.

Lemma after_wakes_recvReady (x : Cmd) (wakes : list (list Event)) :
  recvReady (after_wakes x wakes (length wakes)) = true
  ↔ recvReady x = true ∨ EvReady ∈ concat wakes.
Proof.
  revert x. induction wakes as [|evs wakes IH]; intros x.
  - unfold after_wakes. simpl. rewrite elem_of_nil. tauto.
  - rewrite after_wakes_all, IH, cond_Wait_recvReady. simpl. rewrite elem_of_app. tauto.
Qed.

Lemma after_wakes_dom (x : Cmd) (wakes : list (list Event)) :
  dom (recvVars x) ⊆ dom (recvVars (after_wakes x wakes (length wakes))).
Proof.
  revert x. induction wakes as [|evs wakes IH]; intros x; [done|].
  rewrite after_wakes_all. etrans; [apply (cond_Wait_dom evs)|apply IH].
Qed.

Lemma awaitReady_loop_None (x : Cmd) (wakes : list (list Event)) :
  awaitReady_loop x wakes = None
  ↔ exited (after_wakes x wakes (length wakes)) = false
    ∧ recvReady (after_wakes x wakes (length wakes)) = false.
Proof.
  revert x. induction wakes as [|evs wakes IH]; intros x.
  - unfold after_wakes. simpl. destruct (exited x), (recvReady x); simpl; naive_solver.
  - rewrite after_wakes_all. cbn [awaitReady_loop].
    destruct (negb (exited x) && negb (recvReady x)) eqn:Hcond; [apply IH|].
    split; [done|]. intros [He Hr]. exfalso.
    apply not_true_iff_false in He, Hr.
    rewrite after_wakes_exited, cond_Wait_exited in He.
    rewrite after_wakes_recvReady, cond_Wait_recvReady in Hr.
    destruct (exited x), (recvReady x); simpl in *; try done; tauto.
Qed.

Lemma awaitVars_loop_None (wantKeys : gset string) (x : Cmd) (wakes : list (list Event)) :
  awaitVars_loop wantKeys x (restrict wantKeys (recvVars x)) wakes = None
  ↔ exited (after_wakes x wakes (length wakes)) = false
    ∧ ¬ wantKeys ⊆ dom (recvVars (after_wakes x wakes (length wakes))).
Proof.
  revert x. induction wakes as [|evs wakes IH]; intros x.
  - unfold after_wakes. simpl. destruct (exited x); simpl; [naive_solver|].
    case_bool_decide as Hsz; rewrite restrict_size in Hsz; naive_solver.
  - rewrite after_wakes_all. cbn [awaitVars_loop].
    destruct (negb (exited x) && _) eqn:Hcond.
    + cbv zeta. rewrite updateRes_restrict by apply cond_Wait_dom. apply IH.
    + split; [done|]. intros [He Hk]. exfalso.
      apply not_true_iff_false in He.
      rewrite after_wakes_exited, cond_Wait_exited in He.
      apply andb_false_iff in Hcond as [Hcond|Hcond].
      * destruct (exited x); simpl in *; [tauto | done].
      * apply bool_decide_eq_false in Hcond. rewrite restrict_size in Hcond.
        apply Hk. apply dec_stable in Hcond. etrans; [exact Hcond|].
        etrans; [apply (cond_Wait_dom evs)|apply after_wakes_dom].
Qed.

(** X12.  On a started handle not yet waited for, [awaitReady] sleeps for
    ever exactly when, after all updates, the process has not exited and no
    ready message has come, and [awaitVars] exactly when the process has not
    exited and a requested key is still missing.  So the exit of the process
    always lets both return. *)
Theorem awaiters_block_iff (x : Cmd) (keys : list string) (wakes : list (list Event)) :
  started x = true → calledWait x = false →
  (awaitReady x wakes = None
   ↔ exited (after_wakes x wakes (length wakes)) = false
     ∧ recvReady (after_wakes x wakes (length wakes)) = false)
  ∧ (awaitVars x keys wakes = None
     ↔ exited (after_wakes x wakes (length wakes)) = false
       ∧ ¬ list_to_set keys ⊆ dom (recvVars (after_wakes x wakes (length wakes))))
  ∧ (EvExit ∈ concat wakes →
       is_Some (awaitReady x wakes) ∧ is_Some (awaitVars x keys wakes)).
Proof.
  intros Hs Hw.
  assert (awaitReady x wakes = None
          ↔ exited (after_wakes x wakes (length wakes)) = false
            ∧ recvReady (after_wakes x wakes (length wakes)) = false) as Hready.
  { rewrite <- awaitReady_loop_None. unfold awaitReady. rewrite Hs, Hw. simpl.
    destruct (awaitReady_loop x wakes) as [x'|]; [|done].
    by destruct (recvReady x'). }
  assert (awaitVars x keys wakes = None
          ↔ exited (after_wakes x wakes (length wakes)) = false
            ∧ ¬ list_to_set keys
                ⊆ dom (recvVars (after_wakes x wakes (length wakes)))) as Hvars.
  { rewrite <- awaitVars_loop_None. unfold awaitVars. rewrite Hs, Hw. simpl.
    rewrite wantKeys_list_to_set, (right_id_L ∅ (∪)), updateRes_empty.
    destruct (awaitVars_loop _ _ _ _) as [[x' res]|]; [|done].
    by case_bool_decide. }
  split; [done|]. split; [done|].
  intros Hexit.
  assert (exited (after_wakes x wakes (length wakes)) = true) as He
    by (apply after_wakes_exited; auto).
  split; apply not_eq_None_Some; [rewrite Hready | rewrite Hvars];
    intros [? _]; congruence.
Qed.



(** X14.  [awaitVars] depends on its keys only as a set: order and
    repetition do not matter.  With no key at all it returns the empty
    mapping at once, also when the process has exited. *)
Theorem awaitVars_keys_as_set (x : Cmd) (keys keys' : list string)
    (wakes : list (list Event)) :
  ((∀ k, k ∈ keys ↔ k ∈ keys') → awaitVars x keys wakes = awaitVars x keys' wakes)
  ∧ (started x = true → calledWait x = false →
       awaitVars x [] wakes = Some (x, (Some ∅, None))).
Proof.
  split.
  - intros Hk. unfold awaitVars. rewrite !wantKeys_list_to_set.
    assert ((list_to_set keys : gset string) = list_to_set keys') as ->; [|done].
    apply set_eq. intros k. by rewrite !elem_of_list_to_set.
  - intros Hs Hw. unfold awaitVars. rewrite Hs, Hw. simpl.
    rewrite updateRes_empty.
    assert (restrict ∅ (recvVars x) = ∅) as ->.
    { apply map_eq. intros k. by rewrite restrict_lookup, lookup_empty. }
    assert (bool_decide (size (∅ : gmap string string) < size (∅ : gset string))%nat
            = false) as Hsz
      by (apply bool_decide_eq_false; rewrite map_size_empty, size_empty; lia).
    destruct wakes; cbn [awaitVars_loop]; by rewrite Hsz, andb_false_r.
Qed.

(** *** The decoder, write by write *)

(** X15.  The decoder does not depend on how the output is cut into
    writes.  If the write of [p1] succeeds, it reports all of [p1] written,
    and writing [p1 ++ p2] at once leaves the decoder and the handle as
    writing [p2] afterwards does, with the same error, and reports the sum
    of the lengths, or zero on an error, although the messages before the
    error have been applied.  If the write of [p1] fails, so does the write
    of [p1 ++ p2], in the same state. *)
Theorem Write_split (w : recvWriter) (x : Cmd) (p1 p2 : list byte) :
  (∀ w1 x1 n1, Write w x p1 = (w1, x1, (n1, None)) →
     n1 = length p1
     ∧ (Write w x (p1 ++ p2)).1 = (Write w1 x1 p2).1
     ∧ (Write w x (p1 ++ p2)).2.2 = (Write w1 x1 p2).2.2
     ∧ (Write w x (p1 ++ p2)).2.1
       = match (Write w1 x1 p2).2.2 with
         | Some _ => 0%nat
         | None => (n1 + length p2)%nat
         end)
  ∧ (∀ w1 x1 n1 e, Write w x p1 = (w1, x1, (n1, Some e)) →
       n1 = 0%nat ∧ Write w x (p1 ++ p2) = (w1, x1, (0%nat, Some e))).
Proof.
  unfold Write. rewrite Write_loop_app.
  destruct (Write_loop w x p1) as [[w1 x1] [e|]]; split; try done.
  - by intros ? ? ? ? [= <- <- <- <-].
  - intros ? ? ? [= <- <- <-].
    destruct (Write_loop w1 x1 p2) as [[w2 x2] [e|]]; simpl; [done|].
    by rewrite length_app.
Qed.

Lemma Write_loop_frame (w : recvWriter) (x : Cmd) (p : list byte) :
  set_recvVars ∅ (set_recvReady false (Write_loop w x p).1.2)
  = set_recvVars ∅ (set_recvReady false x)
  ∧ (recvReady x = true → recvReady (Write_loop w x p).1.2 = true).
Proof.
  revert w x. induction p as [|b p IH]; intros w x; [done|].
  cbn [Write_loop]. destruct (decide (b = newline)) as [_|_].
  - destruct (readPrefix w && negb (skipLine w)); [|apply IH].
    destruct (json_Unmarshal (buf w)) as [err|m]; [done|].
    destruct (decide (msg_Type m = typeReady)).
    { destruct (IH recvWriter_zero (set_recvReady true x)) as [-> Hr]. split; [done|].
      intros _. by apply Hr. }
    destruct (decide (msg_Type m = typeVars)); [|done].
    destruct (IH recvWriter_zero (set_recvVars (mergeMaps (recvVars x) (msg_Vars m)) x))
      as [-> Hr].
    done.
  - destruct (negb (skipLine w)); [|apply IH].
    destruct (negb (readPrefix w) && _); [|apply IH].
    destruct (bool_decide _); apply IH.
Qed.

(** X16.  A write to the decoder changes nothing of the handle but the
    ready flag and the received variables, and it never clears the ready
    flag. *)
Theorem Write_touches_only_messages (w : recvWriter) (x : Cmd) (p : list byte) :
  (Write w x p).1.2
  = set_recvVars (recvVars (Write w x p).1.2)
      (set_recvReady (recvReady (Write w x p).1.2) x)
  ∧ (recvReady x = true → recvReady (Write w x p).1.2 = true).
Proof.
  destruct (Write_loop_frame w x p) as [Hfr Hr].
  assert ((Write w x p).1.2 = (Write_loop w x p).1.2) as ->
    by (unfold Write; by destruct (Write_loop w x p) as [[? ?] [?|]]).
  split; [|done].
  destruct ((Write_loop w x p).1.2), x. simpl in *. by simplify_eq.
Qed.

Lemma Write_loop_failure_state (w w' : recvWriter) (x x' : Cmd) (p : list byte) (e : error) :
  Write_loop w x p = (w', x', Some e) →
  readPrefix w' && negb (skipLine w') = true
  ∧ (json_Unmarshal (buf w') = inl e
     ∨ ∃ m, json_Unmarshal (buf w') = inr m ∧ msg_Type m ≠ typeReady
            ∧ msg_Type m ≠ typeVars ∧ e = unknownMessageType (msg_Type m)).
Proof.
  revert w x. induction p as [|b p IH]; intros w x; [done|].
  cbn [Write_loop]. destruct (decide (b = newline)) as [_|_].
  - destruct (readPrefix w && negb (skipLine w)) eqn:Hst; [|apply IH].
    destruct (json_Unmarshal (buf w)) as [err|m] eqn:Hm.
    { intros [= <- <- <-]. auto. }
    destruct (decide (msg_Type m = typeReady)); [apply IH|].
    destruct (decide (msg_Type m = typeVars)); [apply IH|].
    intros [= <- <- <-]. split; [done|]. right. by exists m.
  - destruct (negb (skipLine w)); [|apply IH].
    destruct (negb (readPrefix w) && _); [|apply IH].
    destruct (bool_decide _); apply IH.
Qed.

(** X17.  A write that fails reports zero bytes and leaves the decoder
    on the line that failed: the state is not reset, so a newline written
    next fails again with the same error. *)
Theorem Write_failure_is_sticky (w w' : recvWriter) (x x' : Cmd) (p more : list byte)
    (n : nat) (e : error) :
  Write w x p = (w', x', (n, Some e)) →
  n = 0%nat ∧ Write w' x' (newline :: more) = (w', x', (0%nat, Some e)).
Proof.
  unfold Write at 1.
  destruct (Write_loop w x p) as [[w1 x1] [e1|]] eqn:Hloop; [|done].
  intros [= <- <- <- <-]. split; [done|].
  destruct (Write_loop_failure_state _ _ _ _ _ _ Hloop) as [Hst Hm].
  unfold Write. cbn [Write_loop]. rewrite decide_True by done. rewrite Hst.
  destruct Hm as [->|(m & -> & Hr & Hv & ->)]; [done|].
  by rewrite !decide_False.
Qed.

(** *** From the decoder to the waiting caller *)

Lemma restrict_mergeMaps (wantKeys : gset string) (vars carried : gmap string string) :
  wantKeys ⊆ dom carried →
  restrict wantKeys (mergeMaps vars carried) = restrict wantKeys carried.
Proof.
  intros Hsub. apply map_eq. intros k. rewrite !restrict_lookup, mergeMaps_lookup.
  destruct (decide (k ∈ wantKeys)) as [Hk|]; [|done].
  apply Hsub, elem_of_dom in Hk as [v ->]. done.
Qed.

(** X18.  From the decoder to the caller.  Let the decoder be in a state
    reached by successful writes, and let a write complete a line that starts
    with the marker and whose rest decodes to a message.  For a ready message
    the write succeeds, sets the ready flag, and [awaitReady] then returns
    success at once; for a variables message the write succeeds, merges the
    variables, and [awaitVars] for keys carried by the message returns at
    once with the values of the message. *)
Theorem message_line_releases_waiter (x0 x : Cmd) (w : recvWriter)
    (pre l rest : list byte) (m : msg) (keys : list string) (wakes : list (list Event)) :
  msgPrefix ≠ [] →
  Write_loop recvWriter_zero x0 pre = (w, x, None) →
  newline ∉ l →
  (last_line [] pre ++ l)%list = (msgPrefix ++ rest)%list →
  json_Unmarshal rest = inr m →
  started x = true → calledWait x = false →
  (msg_Type m = typeReady →
     Write w x (l ++ [newline])
     = (recvWriter_zero, set_recvReady true x, (S (length l), None))
     ∧ awaitReady (set_recvReady true x) wakes = Some (set_recvReady true x, None))
  ∧ (msg_Type m = typeVars → msg_Type m ≠ typeReady →
       Write w x (l ++ [newline])
       = (recvWriter_zero, set_recvVars (mergeMaps (recvVars x) (msg_Vars m)) x,
          (S (length l), None))
       ∧ (list_to_set keys ⊆ dom (msg_Vars m) →
            awaitVars (set_recvVars (mergeMaps (recvVars x) (msg_Vars m)) x) keys wakes
            = Some (set_recvVars (mergeMaps (recvVars x) (msg_Vars m)) x,
                    (Some (restrict (list_to_set keys) (msg_Vars m)), None)))).
Proof.
  intros Hp Hpre Hl Hline Hm Hs Hw.
  rewrite <- (after_line_nil Hp) in Hpre.
  apply Write_loop_reach in Hpre as ->; [|done].
  assert (Write_loop (after_line (last_line [] pre)) x (l ++ [newline])
          = Write_loop (after_line (msgPrefix ++ rest)%list) x [newline]) as Hstep
    by (rewrite <- Hline; by apply Write_loop_fragment).
  assert (length (l ++ [newline]) = S (length l)) as Hlen
    by (rewrite length_app; simpl; lia).
  split.
  - intros Hty. split.
    + unfold Write. rewrite Hstep, Write_loop_newline, Hlen.
      rewrite take_app_length, drop_app_length, bool_decide_eq_true_2, Hm by done.
      by rewrite decide_True.
    + unfold awaitReady. simpl. rewrite Hs, Hw. simpl.
      by rewrite awaitReady_loop_now by auto.
  - intros Hty Hnr. split.
    + unfold Write. rewrite Hstep, Write_loop_newline, Hlen.
      rewrite take_app_length, drop_app_length, bool_decide_eq_true_2, Hm by done.
      rewrite decide_False by done. by rewrite decide_True.
    + intros Hkeys. unfold awaitVars. simpl. rewrite Hs, Hw. simpl.
      rewrite wantKeys_list_to_set, (right_id_L ∅ (∪)), updateRes_empty.
      assert (list_to_set keys ⊆ dom (mergeMaps (recvVars x) (msg_Vars m))) as Hdom.
      { unfold mergeMaps. rewrite dom_union_L. set_solver. }
      pose proof (awaitVars_loop_now (list_to_set keys)
                    (set_recvVars (mergeMaps (recvVars x) (msg_Vars m)) x) wakes
                    (or_intror Hdom)) as Hnow.
      simpl in Hnow. rewrite Hnow.
      rewrite bool_decide_eq_false_2 by (rewrite restrict_size; tauto).
      by rewrite restrict_mergeMaps.
Qed.

(** *** The calls that capture the output *)

Lemma exitWaiter_frame (exit : option (option error)) (x : Cmd) :
  c (exitWaiter exit x).1 = c x ∧ started (exitWaiter exit x).1 = started x
  ∧ calledWait (exitWaiter exit x).1 = calledWait x
  ∧ stdoutWriters (exitWaiter exit x).1 = stdoutWriters x
  ∧ stderrWriters (exitWaiter exit x).1 = stderrWriters x
  ∧ closers (exitWaiter exit x).1 = closers x
  ∧ (∀ o, o ∈ (exitWaiter exit x).2 → o ∈ closers x).
Proof.
  unfold exitWaiter. destruct exit as [waitErr|]; [destruct (isRunning x)|]; simpl;
    repeat split; try (by intros ? ?%elem_of_nil).
  intros o. apply (closeClosers_elem (set_exited true x)).
Qed.

Lemma wait_frame (x x' : Cmd) (r : option error) :
  wait x = Some (x', r) →
  c x' = c x ∧ started x' = started x ∧ stdoutWriters x' = stdoutWriters x
  ∧ stderrWriters x' = stderrWriters x ∧ closers x' = closers x.
Proof.
  unfold wait. destruct (negb (started x)); [by intros [= <- <-]|].
  destruct (calledWait x); [by intros [= <- <-]|]. simpl.
  destruct (waitChan x); [|done]. by intros [= <- <-].
Qed.

Lemma run_inv (os : startOS) (sh : Shell) (exit : option (option error)) (x x' : Cmd)
    (closed : list Object) (err : option error) :
  run os sh exit x = Some (x', closed, err) →
  ∃ x1 err1, start_body os sh x = (x1, err1)
    ∧ c x' = c x1 ∧ started x' = started x1 ∧ stdoutWriters x' = stdoutWriters x1
    ∧ stderrWriters x' = stderrWriters x1 ∧ closers x' = closers x1
    ∧ (∀ o, o ∈ closed → o ∈ closers x1)
    ∧ (∀ e, err1 = Some e → err = Some e).
Proof.
  unfold run. destruct (start os sh x) as [[x1 closed1] err1] eqn:Hs.
  pose proof (start_closed os sh x) as Hclosed. rewrite Hs in Hclosed. simpl in Hclosed.
  apply start_unfold in Hs as [Hb Hc1]. intros Hrun. exists x1, err1. split; [done|].
  destruct err1 as [e|].
  - injection Hrun as <- <- <-. by repeat split.
  - destruct (exitWaiter_frame exit x1) as (Hc & Hst & _ & Ho & He & Hcl & Hcls).
    destruct (exitWaiter exit x1) as [x2 closed2]. simpl in *.
    destruct (wait x2) as [[x3 r]|] eqn:Hwait; [|done].
    apply wait_frame in Hwait as (Hc' & Hst' & Ho' & He' & Hcl').
    injection Hrun as <- <- <-. repeat split; try congruence.
    intros o [?|?]%elem_of_app; auto.
Qed.

(** [start_body_inv] at the handle of the hypothesis. *)
Tactic Notation "start_body_facts" hyp(Hb) hyp(Hc) "as" simple_intropattern(pat) :=
  match type of Hb with
  | start_body ?os ?sh ?xb = (?x1, ?err1) =>
      destruct (start_body_inv os sh xb x1 err1 Hc Hb) as pat
  end.

(** X19.  [combinedOutput] and [stdoutStderr] on a fresh handle return
    the text of their buffers; the buffer of [combinedOutput] is a sink of
    both streams, the two buffers of [stdoutStderr] of one stream each, and
    once the process was started both streams are written under the one
    shared lock.  The buffers are not registered for closing: whatever is
    closed during the call was registered before or is an output file. *)
Theorem capture_both_streams_locked (buffer errBuffer : Object) (text errText : string)
    (os : startOS) (sh : Shell) (exit : option (option error)) (x : Cmd) :
  calledStart x = false → started x = false →
  (∀ x' closed t err,
     combinedOutput buffer text os sh exit x = Some (x', closed, (t, err)) →
     t = text ∧ buffer ∈ stdoutWriters x' ∧ buffer ∈ stderrWriters x'
     ∧ (started x' = true →
          exec_Stdout (c x')
          = Some (lockedWriter sharedMu (MultiWriter (stdoutWriters x')))
          ∧ exec_Stderr (c x')
            = Some (lockedWriter sharedMu (MultiWriter (stderrWriters x'))))
     ∧ (∀ o, o ∈ closed → o ∈ closers x ∨ opened os o))
  ∧ (∀ x' closed t t' err,
       stdoutStderr buffer errBuffer text errText os sh exit x
       = Some (x', closed, (t, t', err)) →
       t = text ∧ t' = errText
       ∧ buffer ∈ stdoutWriters x' ∧ errBuffer ∈ stderrWriters x'
       ∧ (started x' = true →
            exec_Stdout (c x')
            = Some (lockedWriter sharedMu (MultiWriter (stdoutWriters x')))
            ∧ exec_Stderr (c x')
              = Some (lockedWriter sharedMu (MultiWriter (stderrWriters x'))))
       ∧ (∀ o, o ∈ closed → o ∈ closers x ∨ opened os o)).
Proof.
  intros Hc Hns. split.
  - intros x' closed t err. unfold combinedOutput. rewrite Hc. simpl.
    destruct (run _ _ _ _) as [[[x2 closed2] err2]|] eqn:Hrun; [|done].
    intros [= <- <- <- <-]. split; [done|].
    apply run_inv in Hrun
      as (x1 & err1 & Hb & Hcx & Hst & Ho & He & Hcl & Hcls & _).
    start_body_facts Hb Hc as (_ & _ & Hout & Herr & Hclo & _ & _ & Hfail & Hok).
    simpl in *.
    assert (buffer ∈ stderrWriters x1) as Hbe
      by (eapply elem_of_prefix; [|exact Herr]; set_solver).
    split; [rewrite Ho; eapply elem_of_prefix; [|exact Hout]; set_solver|].
    split; [by rewrite He|]. split.
    + rewrite Hst, Hcx, Ho, He. intros Hst1.
      destruct err1 as [e|]; [destruct (Hfail e eq_refl) as (Hst' & _); congruence|].
      destruct (Hok eq_refl) as (_&_&_&_&_&_&_&_&_&_&_&_&Hw&_).
      rewrite bool_decide_eq_true_2 in Hw; [done|].
      intros Hnil. rewrite Hnil in Hbe. by apply elem_of_nil in Hbe.
    + intros o Ho'. apply Hclo. by apply Hcls.
  - intros x' closed t t' err. unfold stdoutStderr. rewrite Hc. simpl.
    destruct (run _ _ _ _) as [[[x2 closed2] err2]|] eqn:Hrun; [|done].
    intros [= <- <- <- <- <-]. split; [done|]. split; [done|].
    apply run_inv in Hrun
      as (x1 & err1 & Hb & Hcx & Hst & Ho & He & Hcl & Hcls & _).
    start_body_facts Hb Hc as (_ & _ & Hout & Herr & Hclo & _ & _ & Hfail & Hok).
    simpl in *.
    assert (errBuffer ∈ stderrWriters x1) as Hbe
      by (eapply elem_of_prefix; [|exact Herr]; set_solver).
    split; [rewrite Ho; eapply elem_of_prefix; [|exact Hout]; set_solver|].
    split; [by rewrite He|]. split.
    + rewrite Hst, Hcx, Ho, He. intros Hst1.
      destruct err1 as [e|]; [destruct (Hfail e eq_refl) as (Hst' & _); congruence|].
      destruct (Hok eq_refl) as (_&_&_&_&_&_&_&_&_&_&_&_&Hw&_).
      rewrite bool_decide_eq_true_2 in Hw; [done|].
      intros Hnil. rewrite Hnil in Hbe. by apply elem_of_nil in Hbe.
    + intros o Ho'. apply Hclo. by apply Hcls.
Qed.

(** X20.  [stdout] on a fresh handle returns the text of its buffer, which
    is attached after the sinks the caller had attached and before the
    decoder.  On a handle without stderr sinks, propagation and output
    directory, the buffer and the decoder are the only new sinks, stdout is
    the plain fan-out without a lock, and the child has no stderr writer. *)
Theorem stdout_captures_first (buffer : Object) (text : string) (os : startOS) (sh : Shell)
    (exit : option (option error)) (x x' : Cmd) (closed : list Object) (t : string)
    (err : option error) :
  calledStart x = false → started x = false →
  stdout buffer text os sh exit x = Some (x', closed, (t, err)) →
  t = text
  ∧ (stdoutWriters x ++ [buffer])%list `prefix_of` stdoutWriters x'
  ∧ (∀ o, o ∈ closed → o ∈ closers x ∨ opened os o)
  ∧ (started x' = true →
       (stdoutWriters x ++ [buffer; RecvWriter])%list `prefix_of` stdoutWriters x'
       ∧ (stderrWriters x = [] → PropagateOutput x = false → OutputDir x = "" →
            stdoutWriters x' = (stdoutWriters x ++ [buffer; RecvWriter])%list
            ∧ exec_Stdout (c x') = Some (MultiWriter (stdoutWriters x'))
            ∧ exec_Stderr (c x') = None)).
Proof.
  intros Hc Hns. unfold stdout. rewrite Hc. simpl.
  destruct (run _ _ _ _) as [[[x2 closed2] err2]|] eqn:Hrun; [|done].
  intros [= <- <- <- <-]. split; [done|].
  apply run_inv in Hrun as (x1 & err1 & Hb & Hcx & Hst & Ho & He & Hcl & Hcls & _).
  start_body_facts Hb Hc as (_ & _ & Hout & Herr & Hclo & _ & _ & Hfail & Hok).
  simpl in *. rewrite Ho, Hst, Hcx. split; [done|].
  split; [intros o Ho'; apply Hclo; by apply Hcls|].
  intros Hst1.
  destruct err1 as [e|]; [destruct (Hfail e eq_refl) as (Hst' & _); congruence|].
  destruct (Hok eq_refl) as (_&_&_&_&_&_&_&_&Hrecv&_&_&_&Hw&Hplain).
  rewrite <- (assoc_L app) in Hrecv. split; [done|].
  intros Hnil Hpo Hod. destruct (Hplain Hod Hpo) as [Ho1 He1].
  rewrite <- (assoc_L app) in Ho1. split; [done|].
  rewrite He1, Hnil in Hw. by rewrite bool_decide_eq_false_2 in Hw by auto.
Qed.

(** *** New handles and clones *)

(** X21.  A handle made by [newCmd] is registered with a Shell that was
    not cleaned up, has the resolved path (looked up when the name has no
    directory part) as its path and as first argument, followed by the
    arguments given, and is fresh.  So [clone] on it does not panic: it
    registers a second handle with the same path, arguments and variables. *)
Theorem newCmd_handles_clone (lookPath : string → error + string) (sh sh' : Shell)
    (vars : gmap string string) (name : string) (args : list string) (x : Cmd) :
  newCmd lookPath sh vars name args = (sh', (Some x, None)) →
  calledCleanup sh = false ∧ sh' = mkShell false (S (cmds sh))
  ∧ Args x = Path x :: args ∧ Vars x = vars
  ∧ (if decide (filepath_Base name = name) then lookPath name = inr (Path x)
     else Path x = name)
  ∧ calledStart x = false ∧ started x = false ∧ exited x = false
  ∧ calledWait x = false ∧ waitChan x = None ∧ closers x = []
  ∧ ∃ res, clone sh' x = Returns (mkShell false (S (S (cmds sh))), (Some res, None))
           ∧ Path res = Path x ∧ Args res = Args x ∧ Vars res = Vars x.
Proof.
  unfold newCmd, newCmdInternal.
  destruct (calledCleanup sh) eqn:Hsh.
  { repeat case_match; by intros [=]. }
  destruct (decide (filepath_Base name = name)) as [Hbase|Hbase];
    [destruct (lookPath name) as [e|lp] eqn:Hlp; [done|]|];
    intros [= <- <-]; simpl; repeat split; eexists; by repeat split.
Qed.

(** X22.  Where making a handle fails.  [clone] panics exactly on an empty
    argument list; after the cleanup of the Shell, [clone] and
    [newCmdInternal] return [errAlreadyCalledCleanup]; [newCmd] returns the
    error of a failed lookup.  Whenever [newCmd] returns no handle it
    returns an error and leaves the Shell as it was. *)
Theorem handle_creation_failures (lookPath : string → error + string) (sh : Shell)
    (vars : gmap string string) (name : string) (args : list string) (x : Cmd) :
  (clone sh x = Panics ↔ Args x = [])
  ∧ (calledCleanup sh = true → Args x ≠ [] →
       clone sh x = Returns (sh, (None, Some errAlreadyCalledCleanup)))
  ∧ (calledCleanup sh = true →
       newCmdInternal sh vars name args = (sh, (None, Some errAlreadyCalledCleanup)))
  ∧ (∀ e, filepath_Base name = name → lookPath name = inl e →
       newCmd lookPath sh vars name args = (sh, (None, Some e)))
  ∧ ((newCmd lookPath sh vars name args).2.1 = None →
       (newCmd lookPath sh vars name args).1 = sh
       ∧ (newCmd lookPath sh vars name args).2.2 ≠ None).
Proof.
  unfold clone, newCmd, newCmdInternal. repeat split.
  - destruct (Args x); [done|]. destruct (calledCleanup sh); done.
  - by intros ->.
  - intros Hsh Hargs. destruct (Args x); [done|]. by rewrite Hsh.
  - by intros ->.
  - intros e Hbase ->. by rewrite decide_True.
  - repeat case_match; simplify_eq/=; done.
  - repeat case_match; simplify_eq/=; done.
Qed.

(** *** The report of errors *)

(** X23.  [handleError] records the error, nil included, in [Err] and
    changes nothing else.  It calls [Shell.HandleError], with that error,
    exactly when the error is not nil and is not an exit status that
    [ExitErrorIsOk] allows. *)
Theorem handleError_reports (err : option error) (x : Cmd) :
  Err (handleError err x).1 = err
  ∧ set_Err (Err x) (handleError err x).1 = set_Err (Err x) x
  ∧ ((handleError err x).2 = None
     ↔ err = None ∨ (ExitErrorIsOk x = true ∧ ∃ status, err = Some (ExitError status)))
  ∧ ((handleError err x).2 = None ∨ (handleError err x).2 = Some err).
Proof.
  unfold handleError, errorIsOk. simpl.
  destruct (ExitErrorIsOk x) eqn:Hok, err as [[| |status]|]; simpl;
    repeat split; try done; try naive_solver.
Qed.

(** *** After [start] *)

(** X24.  After a call of [start], failed or not, the configuration of the
    handle is closed: [addStdoutWriter], [addStderrWriter], [stdoutPipe],
    [stderrPipe], [stdinPipe], [stdout], [stdoutStderr], [combinedOutput]
    and [start] itself return [errAlreadyCalledStart] and leave the handle
    as it is. *)
Theorem configuration_closed_after_start (os os' : startOS) (sh sh' : Shell)
    (exit : option (option error)) (x : Cmd) (wc p : Object) (pipe : error + Object)
    (text : string) :
  let x' := (start os sh x).1.1 in
  addStdoutWriter wc x' = (x', Some errAlreadyCalledStart)
  ∧ addStderrWriter wc x' = (x', Some errAlreadyCalledStart)
  ∧ stdoutPipe p x' = (x', (None, Some errAlreadyCalledStart))
  ∧ stderrPipe p x' = (x', (None, Some errAlreadyCalledStart))
  ∧ stdinPipe pipe x' = (x', (None, Some errAlreadyCalledStart))
  ∧ stdout p text os' sh' exit x' = Some (x', [], ("", Some errAlreadyCalledStart))
  ∧ stdoutStderr p wc text text os' sh' exit x'
    = Some (x', [], ("", "", Some errAlreadyCalledStart))
  ∧ combinedOutput p text os' sh' exit x'
    = Some (x', [], ("", Some errAlreadyCalledStart))
  ∧ (start os' sh' x').1.1 = x' ∧ (start os' sh' x').2 = Some errAlreadyCalledStart.
Proof.
  intros x'. pose proof (start_calledStart os sh x) as Hc. fold x' in Hc.
  unfold addStdoutWriter, addStderrWriter, stdoutPipe, stderrPipe, stdinPipe, stdout,
    stdoutStderr, combinedOutput, start, start_body.
  by rewrite Hc.
Qed.

End lifecycle.

(** ** The properties on concrete handles *)

Section examples.
#[local] Existing Instance demoExt.

Lemma not_elem_of_by_computation (b : byte) (l : list byte) :
  bool_decide (b ∉ l) = true → b ∉ l.
Proof. apply bool_decide_eq_true_1. Qed.

(** C1: with the ready flag set and the process exited, [awaitReady] returns
    at once without an error. *)
Lemma await_satisfied_wins_witness :
  started (set_recvReady true (set_exited true demoStarted)) = true
  ∧ calledWait (set_recvReady true (set_exited true demoStarted)) = false
  ∧ awaitReady (set_recvReady true (set_exited true demoStarted)) []
    = Some (set_recvReady true (set_exited true demoStarted), None).
Proof.
  split; [reflexivity|]. split; [reflexivity|].
  apply (proj1 (await_satisfied_wins
                  (set_recvReady true (set_exited true demoStarted)) [] []
                  eq_refl eq_refl)); reflexivity.
Defined.

(** C1: the ready message and the exit arrive during the same wait, in
    either order, and [awaitReady] returns success; the wanted variable and
    the exit arrive during the same wait, and [awaitVars] returns the
    variable. *)
Lemma exit_does_not_win :
  started demoStarted = true ∧ calledWait demoStarted = false
  ∧ exited (cond_Wait [EvReady; EvExit] demoStarted) = true
  ∧ recvReady (cond_Wait [EvReady; EvExit] demoStarted) = true
  ∧ awaitReady demoStarted [[EvReady; EvExit]]
    = Some (cond_Wait [EvReady; EvExit] demoStarted, None)
  ∧ awaitReady demoStarted [[EvExit; EvReady]]
    = Some (cond_Wait [EvExit; EvReady] demoStarted, None)
  ∧ exited (cond_Wait [EvVars {["a" := "1"]}; EvExit] demoStarted) = true
  ∧ awaitVars demoStarted ["a"] [[EvVars {["a" := "1"]}; EvExit]]
    = Some (cond_Wait [EvVars {["a" := "1"]}; EvExit] demoStarted,
            (Some {["a" := "1"]}, None)).
Proof. repeat split; by vm_compute. Qed.

(** C9: of the two variables received, only the requested one is returned. *)
Lemma awaitVars_exactly_requested_witness :
  awaitVars demoStarted ["a"] [[EvVars (<["a" := "1"]> {["b" := "2"]})]]
  = Some (after_wakes demoStarted [[EvVars (<["a" := "1"]> {["b" := "2"]})]] 1,
          (Some {["a" := "1"]}, None))
  ∧ dom ({["a" := "1"]} : gmap string string) = list_to_set ["a"].
Proof.
  assert (awaitVars demoStarted ["a"] [[EvVars (<["a" := "1"]> {["b" := "2"]})]]
          = Some (after_wakes demoStarted [[EvVars (<["a" := "1"]> {["b" := "2"]})]] 1,
                  (Some {["a" := "1"]}, None))) as Hrun by (by vm_compute).
  split; [exact Hrun|].
  exact (proj1 (awaitVars_exactly_requested _ _ _ _ _ Hrun)).
Defined.

(** C2: the stdin text of a handle is in its clone. *)
Lemma clone_copies_stdin :
  calledStart (set_Stdin "input" demoCmd) = false
  ∧ clone demoShell (set_Stdin "input" demoCmd)
    = Returns (mkShell false 2, (Some (set_Stdin "input" demoCmd), None))
  ∧ Stdin (set_Stdin "input" demoCmd) = "input".
Proof. repeat split; by vm_compute. Qed.

Lemma clone_copies_configuration_witness :
  calledCleanup demoShell = false
  ∧ Args demoCmd = Path demoCmd :: ["hello"]
  ∧ ∃ res, clone demoShell demoCmd
           = Returns (mkShell false (S (cmds demoShell)), (Some res, None))
           ∧ Path res = Path demoCmd ∧ Args res = Args demoCmd.
Proof.
  split; [reflexivity|]. split; [reflexivity|].
  destruct (clone_copies_configuration demoShell demoCmd ["hello"] eq_refl eq_refl)
    as (res & Hclone & Hpath & Hargs & _).
  exists res. auto.
Defined.

(** C3: a signal to a handle that was never started is an error. *)
Lemma signal_before_start :
  started demoCmd = false ∧ calledStart demoCmd = false
  ∧ signal None demoCmd = (Some errDidNotCallStart, false).
Proof. repeat split; reflexivity. Qed.






(** C6: a line with the marker and a text that does not decode fails the
    write. *)
Lemma Write_line_by_marker_witness :
  msgPrefix ≠ []
  ∧ Write_loop recvWriter_zero demoStarted [] = (recvWriter_zero, demoStarted, None)
  ∧ (newline ∉ bytes_of "#! garbage")
  ∧ (Write recvWriter_zero demoStarted (bytes_of "#! garbage" ++ [newline])).2
    = (0%nat, Some (errorsNew "invalid character")).
Proof.
  assert (msgPrefix ≠ []) as Hp by done.
  assert (newline ∉ bytes_of "#! garbage") as Hl
    by (apply not_elem_of_by_computation; by vm_compute).
  repeat (split; [done|]).
  apply (proj1 (Write_line_by_marker demoStarted demoStarted recvWriter_zero []
                  (bytes_of "#! garbage") [] Hp eq_refl Hl)
           (bytes_of "garbage")).
  - by vm_compute.
  - by vm_compute.
Defined.

(** *** The further properties *)

Lemma elem_of_by_computation (o : Object) (l : list Object) :
  bool_decide (o ∈ l) = true → o ∈ l.
Proof. apply bool_decide_eq_true_1. Qed.


Lemma start_success_witness :
  start demoOS demoShell demoSink = (demoRunning, [], None)
  ∧ started demoRunning = true ∧ calledStart demoRunning = true
  ∧ exec_Path (c demoRunning) = Path demoSink.
Proof.
  assert (start demoOS demoShell demoSink = (demoRunning, [], None)) as Hs
    by (by vm_compute).
  split; [done|].
  destruct (start_success demoOS demoShell demoSink demoRunning [] Hs)
    as (_ & _ & _ & _ & H1 & H2 & _ & H3 & _).
  auto.
Defined.

Lemma start_environment_witness :
  start demoOS demoShell demoSink = (demoRunning, [], None)
  ∧ ∃ vars, exec_Env (c demoRunning) = mapToSlice vars
            ∧ vars !! envExitAfter = None
            ∧ Vars demoRunning = Vars demoSink.
Proof.
  assert (start demoOS demoShell demoSink = (demoRunning, [], None)) as Hs
    by (by vm_compute).
  split; [done|].
  destruct (start_environment demoOS demoShell demoSink demoRunning [] Hs)
    as (vars & H1 & H2 & _ & _ & H3).
  exists vars. auto.
Defined.

Lemma Pid_after_start_witness :
  calledStart demoSink = false ∧ started demoSink = false
  ∧ start demoOS demoShell demoSink = (demoRunning, [], None)
  ∧ Pid demoSink = Returns (-1)
  ∧ ∃ pid, exec_Start demoOS = inr pid ∧ Pid demoRunning = Returns pid.
Proof.
  assert (start demoOS demoShell demoSink = (demoRunning, [], None)) as Hs
    by (by vm_compute).
  repeat (split; [done|]).
  destruct (Pid_after_start demoOS demoShell demoSink demoRunning [] None
              eq_refl eq_refl Hs) as (H1 & _ & H2).
  auto.
Defined.

Lemma parent_streams_never_closed_witness :
  (OsStdout ∉ closers demoPropagate)
  ∧ (∀ name, os_OpenFile demoOS name ≠ inr OsStdout)
  ∧ (OsStdout ∉ closers (foldl register demoPropagate demoRegistrations))
  ∧ (OsStdout ∉ (start demoOS demoShell (foldl register demoPropagate demoRegistrations)).1.2)
  ∧ (OsStdout ∉ (startExitWaiter None
                   (start demoOS demoShell
                      (foldl register demoPropagate demoRegistrations)).1.1).2)
  ∧ OsStdout ∈ stdoutWriters
                 (start demoOS demoShell (foldl register demoPropagate demoRegistrations)).1.1.
Proof.
  assert (OsStdout ∉ closers demoPropagate) as H0 by apply not_elem_of_nil.
  assert (∀ name, os_OpenFile demoOS name ≠ inr OsStdout) as Hos by done.
  split; [done|]. split; [done|].
  destruct (parent_streams_never_closed demoOS demoShell demoPropagate demoRegistrations
              None OsStdout (or_introl eq_refl) H0 Hos) as (H1 & H2 & H3).
  repeat (split; [done|]).
  apply elem_of_by_computation. by vm_compute.
Defined.

Lemma wait_once_witness :
  started demoExited = true ∧ calledWait demoExited = false
  ∧ waitChan demoExited = Some (Some (ExitError 1))
  ∧ ∃ x', wait demoExited = Some (x', Some (ExitError 1))
          ∧ calledWait x' = true
          ∧ wait x' = Some (x', Some errAlreadyCalledWait).
Proof.
  repeat (split; [by vm_compute|]).
  destruct (wait_once demoExited None None [] [] eq_refl eq_refl) as [_ H].
  destruct (H (Some (ExitError 1)) eq_refl) as (x' & H1 & H2 & _ & H3 & _).
  exists x'. auto.
Defined.

Lemma not_started_guards_witness :
  calledStart demoSink = false ∧ started demoSink = false
  ∧ start demoFailOS demoShell demoSink
    = (demoFailed, [Ref 7], Some (errorsNew "exec: not found"))
  ∧ wait demoFailed = Some (demoFailed, Some errDidNotCallStart)
  ∧ awaitReady demoFailed [] = Some (demoFailed, Some errDidNotCallStart).
Proof.
  assert (start demoFailOS demoShell demoSink
          = (demoFailed, [Ref 7], Some (errorsNew "exec: not found"))) as Hs
    by (by vm_compute).
  repeat (split; [done|]).
  destruct (not_started_guards demoFailOS demoShell demoSink demoFailed [Ref 7] _
              None None [] [] eq_refl eq_refl Hs) as (H1 & H2 & _).
  auto.
Defined.

Lemma run_result_witness :
  calledStart demoSink = false ∧ started demoSink = false ∧ exited demoSink = false
  ∧ calledWait demoSink = false ∧ waitChan demoSink = None
  ∧ start demoOS demoShell demoSink = (demoRunning, [], None)
  ∧ run demoOS demoShell None demoSink = None
  ∧ run demoOS demoShell (Some (Some (ExitError 1))) demoSink
    = Some (set_waitChan None (set_calledWait true (set_exited true demoRunning)),
            closeClosers demoRunning, Some (ExitError 1)).
Proof.
  assert (start demoOS demoShell demoSink = (demoRunning, [], None)) as Hs
    by (by vm_compute).
  do 6 (split; [done|]).
  destruct (run_result demoOS demoShell demoSink demoRunning [] None
              eq_refl eq_refl eq_refl eq_refl eq_refl Hs) as [_ H].
  destruct (H eq_refl) as [H1 H2]. split; [exact H1 | apply H2].
Defined.


Lemma terminate_cases_witness :
  started demoRunning = true ∧ calledWait demoRunning = false
  ∧ exited demoRunning = false ∧ waitChan demoRunning = None
  ∧ terminate None (Some (Some (ExitError 1))) demoRunning
    = Some (set_waitChan None (set_calledWait true (set_exited true demoRunning)),
            closeClosers demoRunning, None)
  ∧ terminate (Some "os: permission denied") None demoRunning
    = Some (demoRunning, [], Some (errorsNew "os: permission denied")).
Proof.
  assert (started demoRunning = true) as Hs by (by vm_compute).
  assert (calledWait demoRunning = false) as Hw by (by vm_compute).
  assert (exited demoRunning = false) as He by (by vm_compute).
  assert (waitChan demoRunning = None) as Hch by (by vm_compute).
  do 4 (split; [done|]). split.
  - destruct (terminate_cases None demoRunning Hs Hw) as [H _].
    destruct (H He Hch) as [_ H2].
    destruct (H2 (or_introl eq_refl)) as [_ H3].
    exact (H3 (Some (ExitError 1))).
  - destruct (terminate_cases (Some "os: permission denied") demoRunning Hs Hw)
      as [H _].
    destruct (H He Hch) as [H4 _]. by apply H4.
Defined.

Lemma awaiters_block_iff_witness :
  started demoStarted = true ∧ calledWait demoStarted = false
  ∧ awaitReady demoStarted [[EvVars ∅]] = None
  ∧ is_Some (awaitReady demoStarted [[EvVars ∅]; [EvExit]])
  ∧ is_Some (awaitVars demoStarted ["a"] [[EvVars ∅]; [EvExit]]).
Proof.
  split; [reflexivity|]. split; [reflexivity|].
  split.
  - apply (proj1 (awaiters_block_iff demoStarted [] [[EvVars ∅]] eq_refl eq_refl)).
    by vm_compute.
  - apply (proj2 (proj2 (awaiters_block_iff demoStarted ["a"] [[EvVars ∅]; [EvExit]]
                           eq_refl eq_refl))).
    simpl. set_solver.
Defined.

Lemma Write_failure_is_sticky_witness :
  Write recvWriter_zero demoStarted (bytes_of "#! garbage" ++ [newline])
  = (mkRecvWriter (bytes_of "garbage") true false, demoStarted,
     (0%nat, Some (errorsNew "invalid character")))
  ∧ Write (mkRecvWriter (bytes_of "garbage") true false) demoStarted [newline]
    = (mkRecvWriter (bytes_of "garbage") true false, demoStarted,
       (0%nat, Some (errorsNew "invalid character"))).
Proof.
  assert (Write recvWriter_zero demoStarted (bytes_of "#! garbage" ++ [newline])
          = (mkRecvWriter (bytes_of "garbage") true false, demoStarted,
             (0%nat, Some (errorsNew "invalid character")))) as Hw by (by vm_compute).
  split; [done|].
  exact (proj2 (Write_failure_is_sticky _ _ _ _ _ [] _ _ Hw)).
Defined.

Lemma message_line_releases_waiter_witness :
  msgPrefix ≠ []
  ∧ Write_loop recvWriter_zero demoStarted [] = (recvWriter_zero, demoStarted, None)
  ∧ (newline ∉ bytes_of "#! READY")
  ∧ started demoStarted = true ∧ calledWait demoStarted = false
  ∧ Write recvWriter_zero demoStarted (bytes_of "#! READY" ++ [newline])
    = (recvWriter_zero, set_recvReady true demoStarted, (9%nat, None))
  ∧ awaitReady (set_recvReady true demoStarted) []
    = Some (set_recvReady true demoStarted, None).
Proof.
  assert (msgPrefix ≠ []) as Hp by done.
  assert (newline ∉ bytes_of "#! READY") as Hl
    by (apply not_elem_of_by_computation; by vm_compute).
  repeat (split; [done|]).
  apply (proj1 (message_line_releases_waiter demoStarted demoStarted recvWriter_zero []
                  (bytes_of "#! READY") (bytes_of "READY") (mkMsg "ready" ∅) [] []
                  Hp eq_refl Hl eq_refl eq_refl eq_refl eq_refl)).
  reflexivity.
Defined.

Lemma capture_both_streams_locked_witness :
  calledStart demoCmd = false ∧ started demoCmd = false
  ∧ combinedOutput (Ref 3) "hello" demoOS demoShell (Some None) demoCmd
    = Some (demoCombined, [], ("hello", None))
  ∧ started demoCombined = true
  ∧ exec_Stdout (c demoCombined)
    = Some (lockedWriter sharedMu (MultiWriter (stdoutWriters demoCombined)))
  ∧ exec_Stderr (c demoCombined)
    = Some (lockedWriter sharedMu (MultiWriter (stderrWriters demoCombined))).
Proof.
  assert (combinedOutput (Ref 3) "hello" demoOS demoShell (Some None) demoCmd
          = Some (demoCombined, [], ("hello", None))) as Hrun by (by vm_compute).
  do 3 (split; [done|]). split; [by vm_compute|].
  destruct (capture_both_streams_locked (Ref 3) (Ref 4) "hello" "" demoOS demoShell
              (Some None) demoCmd eq_refl eq_refl) as [H _].
  destruct (H _ _ _ _ Hrun) as (_ & _ & _ & Hlock & _).
  apply Hlock. by vm_compute.
Defined.

Lemma stdout_captures_first_witness :
  calledStart demoCmd = false ∧ started demoCmd = false
  ∧ stdout (Ref 3) "hello" demoOS demoShell (Some None) demoCmd
    = Some (demoCaptured, [], ("hello", None))
  ∧ stdoutWriters demoCaptured = [Ref 3; RecvWriter]
  ∧ exec_Stdout (c demoCaptured) = Some (MultiWriter (stdoutWriters demoCaptured))
  ∧ exec_Stderr (c demoCaptured) = None.
Proof.
  assert (stdout (Ref 3) "hello" demoOS demoShell (Some None) demoCmd
          = Some (demoCaptured, [], ("hello", None))) as Hrun by (by vm_compute).
  do 3 (split; [done|]).
  destruct (stdout_captures_first (Ref 3) "hello" demoOS demoShell (Some None) demoCmd
              demoCaptured [] "hello" None eq_refl eq_refl Hrun) as (_ & _ & _ & H).
  destruct (H ltac:(by vm_compute)) as [_ H'].
  exact (H' eq_refl eq_refl eq_refl).
Defined.

Lemma newCmd_handles_clone_witness :
  newCmd (fun name => inr ("/bin/" ++ name)) demoShell ∅ "echo" ["hello"]
  = (mkShell false 2, (Some demoCmd, None))
  ∧ Args demoCmd = Path demoCmd :: ["hello"]
  ∧ ∃ res, clone (mkShell false 2) demoCmd = Returns (mkShell false 3, (Some res, None))
           ∧ Path res = Path demoCmd ∧ Args res = Args demoCmd ∧ Vars res = Vars demoCmd.
Proof.
  assert (newCmd (fun name => inr ("/bin/" ++ name)) demoShell ∅ "echo" ["hello"]
          = (mkShell false 2, (Some demoCmd, None))) as Hnew by (by vm_compute).
  split; [done|].
  destruct (newCmd_handles_clone _ _ _ _ _ _ _ Hnew)
    as (_ & _ & H1 & _ & _ & _ & _ & _ & _ & _ & _ & H2).
  auto.
Defined.


Lemma awaitVars_keys_as_set_witness :
  awaitVars demoStarted ["a"; "b"; "a"] [[EvVars (<["a" := "1"]> {["b" := "2"]})]]
  = awaitVars demoStarted ["b"; "a"] [[EvVars (<["a" := "1"]> {["b" := "2"]})]]
  ∧ awaitVars demoStarted [] [] = Some (demoStarted, (Some ∅, None)).
Proof.
  destruct (awaitVars_keys_as_set demoStarted ["a"; "b"; "a"] ["b"; "a"]
              [[EvVars (<["a" := "1"]> {["b" := "2"]})]]) as [H1 _].
  destruct (awaitVars_keys_as_set demoStarted [] [] []) as [_ H2].
  split; [apply H1; set_solver | by apply H2].
Defined.

Lemma Write_split_witness :
  Write recvWriter_zero demoStarted (bytes_of "#! RE")
  = (mkRecvWriter (bytes_of "RE") true false, demoStarted, (5%nat, None))
  ∧ (Write recvWriter_zero demoStarted
       (bytes_of "#! RE" ++ (bytes_of "ADY" ++ [newline]))).1
    = (Write (mkRecvWriter (bytes_of "RE") true false) demoStarted
         (bytes_of "ADY" ++ [newline])).1
  ∧ (Write (mkRecvWriter (bytes_of "RE") true false) demoStarted
       (bytes_of "ADY" ++ [newline])).1
    = (recvWriter_zero, set_recvReady true demoStarted).
Proof.
  assert (Write recvWriter_zero demoStarted (bytes_of "#! RE")
          = (mkRecvWriter (bytes_of "RE") true false, demoStarted, (5%nat, None)))
    as Hw by (by vm_compute).
  split; [done|]. split; [|by vm_compute].
  destruct (Write_split recvWriter_zero demoStarted (bytes_of "#! RE")
              (bytes_of "ADY" ++ [newline])) as [H _].
  exact (proj1 (proj2 (H _ _ _ Hw))).
Defined.

Lemma Write_touches_only_messages_witness :
  recvReady (set_recvReady true demoStarted) = true
  ∧ recvReady (Write recvWriter_zero (set_recvReady true demoStarted)
                 (bytes_of "#! A1" ++ [newline])).1.2 = true.
Proof.
  split; [reflexivity|].
  exact (proj2 (Write_touches_only_messages recvWriter_zero
                  (set_recvReady true demoStarted) (bytes_of "#! A1" ++ [newline]))
           eq_refl).
Defined.

Lemma handle_creation_failures_witness :
  Args demoNoArgs = [] ∧ clone demoShell demoNoArgs = Panics
  ∧ newCmd (fun _ => inl (errorsNew "exec: not found")) demoShell ∅ "echo" []
    = (demoShell, (None, Some (errorsNew "exec: not found"))).
Proof.
  destruct (handle_creation_failures (fun _ => inl (errorsNew "exec: not found"))
              demoShell ∅ "echo" [] demoNoArgs) as (H1 & _ & _ & H2 & _).
  split; [reflexivity|]. split; [by apply H1 | by apply H2].
Defined.

End examples.
